(** * Tom Basso coin-flip study: the three backtest scripts, embedded

    The repository holds three Python scripts:
    - [tom_basso_simplified_v2.py]: random entries, fixed 100 dollar
      notional, no stops ([run_random_backtest]);
    - [tom_basso_simplified_with_trailing_stop.py]: coin-flip entries, a
      fixed fraction of equity at risk, a trailing stop of [atr_mult] times
      the ATR ([run_tom_basso_coin_toss]);
    - [tom_basso_simplified_with_plot.py]: the same engine, which also
      records an equity curve.

    Numbers.  The scripts compute with IEEE doubles.  The embedding computes
    with exact rationals ([Q]); equalities between computed amounts are
    therefore stated with [==].  A rational has no [inf] and no [nan]:
    where the scripts divide, the embedding returns [DivByZero] on a zero
    divisor (numpy answers [inf] or [nan] there and goes on with a
    RuntimeWarning), and a frame cell that pandas holds as [NaN] is an
    [option] that is [None].  Rounding and overflow are not modelled: a
    subtraction or a division of the embedding is the exact one.  Where
    the truth of a statement could depend on that, it either says that it
    is about exact arithmetic, or it puts its hypotheses on the values as
    the code computes them (a stop [price - stop_distance] that is below
    the price) and uses only comparisons, [max] and [min] of them. *)

From Stdlib Require Import QArith Qabs ZArith List Bool Lia Lqa.
Import ListNotations.

Local Open Scope Q_scope.

(** ** Results of fallible code *)

Inductive result (A : Type) : Type :=
| Ok (a : A)
| DivByZero.

Arguments Ok {A} a.
Arguments DivByZero {A}.

Definition bind {A B : Type} (r : result A) (k : A -> result B) : result B :=
  match r with
  | Ok a => k a
  | DivByZero => DivByZero
  end.

Notation "x <- r ;; k" := (bind r (fun x => k))
  (at level 61, r at next level, right associativity).

(** ** Comparisons and built-ins of Python on exact numbers *)

(** [a < b] *)
Definition Qlt_bool (a b : Q) : bool := negb (Qle_bool b a).

(** [a / b] *)
Definition div (a b : Q) : result Q :=
  if Qeq_bool b 0 then DivByZero else Ok (a / b).

(** [max(a, b)]: the first argument unless the second is larger. *)
Definition pymax (a b : Q) : Q := if Qlt_bool a b then b else a.

(** [min(a, b)]: the first argument unless the second is smaller. *)
Definition pymin (a b : Q) : Q := if Qlt_bool b a then b else a.

(** [sum(l)] *)
Definition sum (l : list Q) : Q := fold_left Qplus l 0.

(** [np.mean(l)] of a list that is not empty *)
Definition mean (l : list Q) : Q := sum l / inject_Z (Z.of_nat (length l)).

(** ** The frame the engines read

    After [dropna] every row has a close, an ATR and a signal; the engines
    read exactly these three columns. *)

Record Bar : Type := mkBar {
  Close : Q;
  ATR : Q;
  TotalSignal : Z
}.

(** ** The state of the trailing-stop engine: the local variables of
    [run_tom_basso_coin_toss] that live across iterations. *)

Record State : Type := mkState {
  equity : Q;
  position : Q;        (* shares: + long, - short *)
  entry_price : Q;
  trail_stop : Q;
  trades : list Q      (* in the order of [trades.append] *)
}.

Definition init_state (initial_capital : Q) : State :=
  mkState initial_capital 0 0 0 [].

Section Engine.

Variables (risk_pct atr_mult : Q).

(** The test of the [if] (coin 2, not long) and of the [elif] (coin 1,
    not short) that guard the entry code. *)
Definition long_entry_test (s : State) (b : Bar) : bool :=
  (TotalSignal b =? 2)%Z && Qle_bool (position s) 0.

Definition short_entry_test (s : State) (b : Bar) : bool :=
  (TotalSignal b =? 1)%Z && Qle_bool 0 (position s).

Definition entry_test (s : State) (b : Bar) : bool :=
  long_entry_test s b || short_entry_test s b.

(** The entry part of one iteration (the [if]/[elif] on the signal). *)
Definition entry_step (s : State) (b : Bar) : result State :=
  let price := Close b in
  let atr := ATR b in
  let risk_amount := risk_pct * equity s in
  if long_entry_test s b then
    let stop_distance := atr_mult * atr in
    position_size <- div risk_amount stop_distance ;;
    Ok (mkState (equity s) position_size price (price - stop_distance)
                (trades s))
  else if short_entry_test s b then
    let stop_distance := atr_mult * atr in
    position_size <- div risk_amount stop_distance ;;
    Ok (mkState (equity s) (- position_size) price (price + stop_distance)
                (trades s))
  else Ok s.

(** The trailing-stop part of one iteration (the [if]/[elif] on the
    sign of the position). *)
Definition trailing_step (s : State) (b : Bar) : State :=
  let price := Close b in
  let atr := ATR b in
  if Qlt_bool 0 (position s) then
    let new_trail := price - atr_mult * atr in
    let trail := pymax (trail_stop s) new_trail in
    if Qle_bool price trail then
      let pnl := position s * (price - entry_price s) in
      mkState (equity s + pnl) 0 (entry_price s) trail (trades s ++ [pnl])
    else
      mkState (equity s) (position s) (entry_price s) trail (trades s)
  else if Qlt_bool (position s) 0 then
    let new_trail := price + atr_mult * atr in
    let trail := pymin (trail_stop s) new_trail in
    if Qle_bool trail price then
      let pnl := position s * (price - entry_price s) in
      mkState (equity s + pnl) 0 (entry_price s) trail (trades s ++ [pnl])
    else
      mkState (equity s) (position s) (entry_price s) trail (trades s)
  else s.

(** One iteration of the loop. *)
Definition bar_step (s : State) (b : Bar) : result State :=
  s1 <- entry_step s b ;; Ok (trailing_step s1 b).

(** The loop over the rows of the frame, in order. *)
Fixpoint run_bars (s : State) (df : list Bar) : result State :=
  match df with
  | [] => Ok s
  | b :: rest => s' <- bar_step s b ;; run_bars s' rest
  end.

(** The states at the end of each iteration, in order. *)
Fixpoint trace (s : State) (df : list Bar) : result (list State) :=
  match df with
  | [] => Ok []
  | b :: rest =>
      s' <- bar_step s b ;; l <- trace s' rest ;; Ok (s' :: l)
  end.

End Engine.

(** ** [tom_basso_simplified_with_trailing_stop.py] *)

Module TrailingStop.

(** [run_tom_basso_coin_toss(df, initial_capital, risk_pct, atr_mult)]
    returns [equity, len(trades), np.mean(trades) if trades else 0]. *)
Definition run_tom_basso_coin_toss
    (df : list Bar) (initial_capital risk_pct atr_mult : Q)
  : result (Q * nat * Q) :=
  s <- run_bars risk_pct atr_mult (init_state initial_capital) df ;;
  Ok (equity s, length (trades s),
      match trades s with [] => 0 | _ => mean (trades s) end).

End TrailingStop.

(** ** [tom_basso_simplified_with_plot.py] *)

Module Plot.

(** The loop of the plot variant: the iteration of the trailing-stop
    engine, followed by [equity_curve.append(equity)]. *)
Fixpoint run_curve (risk_pct atr_mult : Q) (s : State) (equity_curve : list Q)
    (df : list Bar) : result (State * list Q) :=
  match df with
  | [] => Ok (s, equity_curve)
  | b :: rest =>
      s' <- bar_step risk_pct atr_mult s b ;;
      run_curve risk_pct atr_mult s' (equity_curve ++ [equity s']) rest
  end.

(** [run_tom_basso_coin_toss(df, initial_capital, risk_pct, atr_mult)]
    starts from [equity_curve = [initial_capital]] and returns
    [equity_curve, trades]. *)
Definition run_tom_basso_coin_toss
    (df : list Bar) (initial_capital risk_pct atr_mult : Q)
  : result (list Q * list Q) :=
  r <- run_curve risk_pct atr_mult (init_state initial_capital)
         [initial_capital] df ;;
  Ok (snd r, trades (fst r)).

End Plot.

(** ** [tom_basso_simplified_v2.py]: the fixed-notional baseline *)

Module V2.

Record State : Type := mkState {
  equity : Q;
  position : Q;
  entry_price : Q;
  trades : list Q
}.

Definition init_state (initial_capital : Q) : State :=
  mkState initial_capital 0 0 [].

(** One iteration of the loop of [run_random_backtest]. *)
Definition bar_step (s : State) (b : Bar) : result State :=
  let price := Close b in
  let signal := TotalSignal b in
  if (signal =? 2)%Z && Qeq_bool (position s) 0 then
    p <- div 100 price ;;
    Ok (mkState (equity s) p price (trades s))
  else if (signal =? 1)%Z && Qlt_bool 0 (position s) then
    let pnl := position s * (price - entry_price s) in
    Ok (mkState (equity s + pnl) 0 (entry_price s) (trades s ++ [pnl]))
  else Ok s.

Fixpoint run_bars (s : State) (df : list Bar) : result State :=
  match df with
  | [] => Ok s
  | b :: rest => s' <- bar_step s b ;; run_bars s' rest
  end.

(** The states at the end of each iteration, in order. *)
Fixpoint trace (s : State) (df : list Bar) : result (list State) :=
  match df with
  | [] => Ok []
  | b :: rest => s' <- bar_step s b ;; l <- trace s' rest ;; Ok (s' :: l)
  end.

(** [run_random_backtest(df, initial_capital)] *)
Definition run_random_backtest (df : list Bar) (initial_capital : Q)
  : result (Q * nat * Q) :=
  s <- run_bars (init_state initial_capital) df ;;
  Ok (equity s, length (trades s),
      match trades s with [] => 0 | _ => mean (trades s) end).

End V2.

(** ** The preparation of the frame (the same code in the three scripts)

    [read_csv_to_dataframe] is input and parsing; the frame it returns is a
    list of candles here, in the order of the index. *)

Module Raw.

Record Candle : Type := mkCandle {
  High : Q;
  Low : Q;
  Close : Q
}.

End Raw.

(** Element-wise operations of pandas and numpy on columns; a [NaN] operand
    gives [NaN]. *)
Definition nan2 (f : Q -> Q -> Q) (a b : option Q) : option Q :=
  match a, b with
  | Some x, Some y => Some (f x y)
  | _, _ => None
  end.

Definition zip_with {A B C : Type} (f : A -> B -> C)
    (l1 : list A) (l2 : list B) : list C :=
  map (fun p => f (fst p) (snd p)) (combine l1 l2).

Definition col_sub : list (option Q) -> list (option Q) -> list (option Q) :=
  zip_with (nan2 Qminus).

Definition np_abs : list (option Q) -> list (option Q) :=
  map (option_map Qabs).

Definition np_maximum : list (option Q) -> list (option Q) -> list (option Q) :=
  zip_with (nan2 pymax).

(** [col.shift()]: every value moves one row down, the first row is [NaN]. *)
Definition shift (col : list (option Q)) : list (option Q) :=
  removelast (None :: col).

(** The column [tr] of [add_atr]. *)
Definition true_range (df : list Raw.Candle) : list (option Q) :=
  let High := map (fun c => Some (Raw.High c)) df in
  let Low := map (fun c => Some (Raw.Low c)) df in
  let Close := map (fun c => Some (Raw.Close c)) df in
  let high_low := col_sub High Low in
  let high_close := np_abs (col_sub High (shift Close)) in
  let low_close := np_abs (col_sub Low (shift Close)) in
  np_maximum high_low (np_maximum high_close low_close).

Definition is_valid (x : option Q) : bool :=
  match x with Some _ => true | None => false end.

(** Which cells of a column hold a value. *)
Definition mask (col : list (option Q)) : list bool := map is_valid col.

Definition valid_values (w : list (option Q)) : list Q :=
  flat_map (fun x => match x with Some v => [v] | None => [] end) w.

(** The mean of one window of [rolling(window=length)]: [min_periods] is
    the window length, so a window with fewer valid observations than
    [length] (and the empty window) gives [NaN]. *)
Definition window_mean (length : nat) (w : list (option Q)) : option Q :=
  let vals := valid_values w in
  match vals with
  | [] => None
  | _ => if (List.length vals <? length)%nat then None else Some (mean vals)
  end.

(** [col.rolling(window=length).mean()]: the window of row [i] is made of
    the rows [i - length + 1 .. i] that exist. *)
Definition rolling_mean (length : nat) (col : list (option Q))
  : list (option Q) :=
  map (fun i => window_mean length (skipn (S i - length) (firstn (S i) col)))
      (seq 0 (List.length col)).

(** [add_atr(df, length)]: the frame with its new column [ATR]. *)
Definition add_atr (df : list Raw.Candle) (length : nat)
  : list (Raw.Candle * option Q) :=
  combine df (rolling_mean length (true_range df)).

(** The signal generator.  [np.random.choice] reads and advances the
    generator that numpy keeps for the whole process.  numpy is not part of
    the repository: the generator's state is a type [G] and the draw of an
    index below [n] is a function [rand_index n], both taken as
    parameters. *)
Section Signals.

Variable G : Type.
Variable rand_index : nat -> G -> nat * G.

(** [np.random.choice(a)] *)
Definition choice (a : list Z) (g : G) : Z * G :=
  let (k, g') := rand_index (List.length a) g in (nth k a 0%Z, g').

(** [total_signal(df, current_candle)] *)
Definition total_signal {F I : Type} (df : F) (current_candle : I) (g : G)
  : Z * G :=
  choice [1; 2]%Z g.

(** [[total_signal(df, idx) for idx in df.index]] *)
Fixpoint signals_for {F I : Type} (df : F) (index : list I) (g : G)
  : list Z * G :=
  match index with
  | [] => ([], g)
  | idx :: rest =>
      let (x, g1) := total_signal df idx g in
      let (xs, g2) := signals_for df rest g1 in
      (x :: xs, g2)
  end.

(** [add_total_signal(df)]: the frame with its new column [TotalSignal],
    and the state the generator is left in. *)
Definition add_total_signal (df : list (Raw.Candle * option Q)) (g : G)
  : list (Raw.Candle * option Q * Z) * G :=
  let (col, g') := signals_for df (seq 0 (List.length df)) g in
  (combine df col, g').

(** [df.dropna()]: the rows without a [NaN]; only [ATR] can hold one. *)
Definition dropna (df : list (Raw.Candle * option Q * Z)) : list Bar :=
  flat_map (fun row =>
              match row with
              | (c, Some atr, signal) => [mkBar (Raw.Close c) atr signal]
              | (_, None, _) => []
              end) df.

(** The lines of the main part that build the frame of the backtest:
    [add_atr], then [add_total_signal], then [dropna]. *)
Definition prepare (length : nat) (df : list Raw.Candle) (g : G)
  : list Bar * G :=
  let df1 := add_atr df length in
  let (df2, g') := add_total_signal df1 g in
  (dropna df2, g').

(** The main part of the trailing-stop script up to the call of the engine
    (window 10, default parameters). *)
Definition main (df : list Raw.Candle) (g : G) : result (Q * nat * Q) :=
  TrailingStop.run_tom_basso_coin_toss (fst (prepare 10 df g))
    10000 (1 # 100) 3.

End Signals.

(** [k] calls of [np.random.choice([1, 2])] in a row from the generator
    state [g]: the values drawn, in order, and the state the generator is
    left in. *)
Fixpoint draws (G : Type) (rand_index : nat -> G -> nat * G)
    (k : nat) (g : G) : list Z * G :=
  match k with
  | O => ([], g)
  | S k' =>
      let (x, g1) := choice G rand_index [1; 2]%Z g in
      let (xs, g2) := draws G rand_index k' g1 in
      (x :: xs, g2)
  end.

(** A concrete generator for the examples: a linear congruential one. *)
Module LCG.

Definition next (g : Z) : Z := ((1103515245 * g + 12345) mod 2147483648)%Z.

Definition rand_index (n : nat) (g : Z) : nat * Z :=
  let g' := next g in
  (Z.to_nat ((g' / 65536) mod Z.of_nat n), g').

End LCG.

(** ** The rest of the main parts *)

(** [read_csv_to_dataframe]: opening the file and parsing its dates is
    input; the rows read from the file are the argument here, and the
    function keeps the rows with [High != Low], in order. *)
Definition read_csv_to_dataframe (rows : list Raw.Candle) : list Raw.Candle :=
  filter (fun c => negb (Qeq_bool (Raw.High c) (Raw.Low c))) rows.

(** [buys = sum(df['TotalSignal']==2)] and
    [sells = sum(df['TotalSignal']==1)] *)
Definition buys (df : list Bar) : nat :=
  length (filter (fun b => (TotalSignal b =? 2)%Z) df).

Definition sells (df : list Bar) : nat :=
  length (filter (fun b => (TotalSignal b =? 1)%Z) df).

(** The metrics and the plotted curve of the main part of the plot
    script. *)
Module PlotMain.

(** [[t for t in trades if t > 0]] and [[t for t in trades if t < 0]] *)
Definition wins (trades : list Q) : list Q :=
  filter (fun t => Qlt_bool 0 t) trades.

Definition losses (trades : list Q) : list Q :=
  filter (fun t => Qlt_bool t 0) trades.

(** [np.mean] of a list that may be empty: [NaN] on the empty list. *)
Definition np_mean (l : list Q) : option Q :=
  match l with
  | [] => None
  | _ => Some (mean l)
  end.

(** [win_rate], [avg_win] and [avg_loss]: all 0 without trades. *)
Definition win_rate (trades : list Q) : Q :=
  match trades with
  | [] => 0
  | _ => inject_Z (Z.of_nat (length (wins trades)))
         / inject_Z (Z.of_nat (length trades)) * 100
  end.

Definition avg_win (trades : list Q) : option Q :=
  match trades with
  | [] => Some 0
  | _ => np_mean (wins trades)
  end.

Definition avg_loss (trades : list Q) : option Q :=
  match trades with
  | [] => Some 0
  | _ => np_mean (losses trades)
  end.

(** [equity_curve[:-1]], the curve drawn against [df.index]. *)
Definition plotted_curve (equity_curve : list Q) : list Q :=
  removelast equity_curve.

End PlotMain.

(** Whether the baseline holds shares. *)
Definition v2_open (s : V2.State) : nat :=
  if Qeq_bool (V2.position s) 0 then 0%nat else 1%nat.

(** A cell that is [NaN] or a number with the property [P]. *)
Definition cell (P : Q -> Prop) (x : option Q) : Prop :=
  match x with Some v => P v | None => True end.

(** ** Frames and states used in the examples *)

(** The default parameters of [run_tom_basso_coin_toss]. *)
Definition default_capital : Q := 10000.
Definition default_risk : Q := 1 # 100.
Definition default_mult : Q := 3.

Definition states_of (r : result (list State)) : list State :=
  match r with Ok l => l | DivByZero => [] end.

(** A bar without volatility, coin 2. *)
Definition flat_bar : Bar := mkBar 100 0 2.

(** A short entry at 100, then coin 2 at 90. *)
Definition reversal_df : list Bar := [mkBar 100 2 1; mkBar 90 2 2].

(** Closes 100, 105, 95 with ATR 2 and coin 2 on every bar. *)
Definition round_trip_df : list Bar :=
  [mkBar 100 2 2; mkBar 105 2 2; mkBar 95 2 2].

(** A short entry at 100 on a quiet market (ATR 0.1), a jump to 200 that is
    stopped with a loss larger than the capital, then coin 2.  The ATR of
    the last two bars, 10.09, is the mean of nine true ranges of 0.1 and
    one of 100. *)
Definition gap_df : list Bar :=
  [mkBar 100 (1 # 10) 1; mkBar 200 (1009 # 100) 1; mkBar 200 (1009 # 100) 2].

(** Coins 2, 1, 1, 2 on rising closes, for the baseline. *)
Definition baseline_df : list Bar :=
  [mkBar 100 2 2; mkBar 110 2 1; mkBar 120 2 1; mkBar 125 2 2].

(** Twelve candles with closes 100 .. 111, each one point wide on both
    sides of its close. *)
Definition warm_up_df : list Raw.Candle :=
  map (fun k => let c := inject_Z (100 + Z.of_nat k) in
                Raw.mkCandle (c + 1) (c - 1) c) (seq 0 12).

(** Thirteen quiet candles at 100 and a jump to 110. *)
Definition coin_df : list Raw.Candle :=
  map (fun c => Raw.mkCandle (inject_Z c + 1) (inject_Z c - 1) (inject_Z c))
    [100; 100; 100; 100; 100; 100; 100; 100; 100; 100; 100; 100; 100; 110]%Z.

Definition round_trip_states : list State :=
  Eval vm_compute in
    states_of (trace default_risk default_mult (init_state default_capital)
                 round_trip_df).

(** * Properties *)

(** ** Arithmetic and list facts shared by the proofs below *)

Lemma Qlt_bool_true (a b : Q) : Qlt_bool a b = true <-> a < b.
Proof.
  unfold Qlt_bool. rewrite negb_true_iff.
  destruct (Qle_bool b a) eqn:E.
  - apply Qle_bool_iff in E. split; [discriminate | intro H; lra].
  - split; [intros _ | reflexivity].
    destruct (Qlt_le_dec a b) as [H | H]; [exact H |].
    apply Qle_bool_iff in H. congruence.
Qed.

Lemma Qlt_bool_false (a b : Q) : Qlt_bool a b = false <-> b <= a.
Proof.
  unfold Qlt_bool. rewrite negb_false_iff. apply Qle_bool_iff.
Qed.

Lemma Qle_bool_false (a b : Q) : Qle_bool a b = false <-> b < a.
Proof.
  rewrite <- Qlt_bool_true. unfold Qlt_bool.
  destruct (Qle_bool a b); simpl; split; congruence.
Qed.

Lemma pymax_spec (a b : Q) :
  (a < b /\ pymax a b = b) \/ (b <= a /\ pymax a b = a).
Proof.
  unfold pymax. destruct (Qlt_bool a b) eqn:E.
  - left. apply Qlt_bool_true in E. auto.
  - right. apply Qlt_bool_false in E. auto.
Qed.

Lemma pymin_spec (a b : Q) :
  (b < a /\ pymin a b = b) \/ (a <= b /\ pymin a b = a).
Proof.
  unfold pymin. destruct (Qlt_bool b a) eqn:E.
  - left. apply Qlt_bool_true in E. auto.
  - right. apply Qlt_bool_false in E. auto.
Qed.

Lemma pymax_ge_l (a b : Q) : a <= pymax a b.
Proof. destruct (pymax_spec a b) as [[H ->] | [H ->]]; lra. Qed.

Lemma pymax_ge_r (a b : Q) : b <= pymax a b.
Proof. destruct (pymax_spec a b) as [[H ->] | [H ->]]; lra. Qed.

Lemma pymin_le_l (a b : Q) : pymin a b <= a.
Proof. destruct (pymin_spec a b) as [[H ->] | [H ->]]; lra. Qed.

Lemma pymin_le_r (a b : Q) : pymin a b <= b.
Proof. destruct (pymin_spec a b) as [[H ->] | [H ->]]; lra. Qed.

Lemma div_fault (a b : Q) : div a b = DivByZero <-> b == 0.
Proof.
  unfold div. destruct (Qeq_bool b 0) eqn:E.
  - apply Qeq_bool_iff in E. tauto.
  - split; [discriminate |]. intro H. apply Qeq_bool_iff in H. congruence.
Qed.

Lemma div_ok (a b : Q) : ~ b == 0 -> div a b = Ok (a / b).
Proof.
  intro H. unfold div. destruct (Qeq_bool b 0) eqn:E; [| reflexivity].
  apply Qeq_bool_iff in E. contradiction.
Qed.

Lemma div_cases (a b : Q) :
  (b == 0 /\ div a b = DivByZero) \/ (~ b == 0 /\ div a b = Ok (a / b)).
Proof.
  destruct (Qeq_dec b 0) as [H | H].
  - left. split; [exact H | now apply div_fault].
  - right. split; [exact H | now apply div_ok].
Qed.

Lemma sum_from (l : list Q) (a : Q) : fold_left Qplus l a == a + sum l.
Proof.
  unfold sum. revert a. induction l as [| x l IH]; intro a; simpl.
  - lra.
  - rewrite (IH (a + x)), (IH (0 + x)). lra.
Qed.

Lemma sum_snoc (l : list Q) (x : Q) : sum (l ++ [x]) == sum l + x.
Proof. unfold sum. rewrite fold_left_app. simpl. reflexivity. Qed.

Lemma bind_ok {A B : Type} (r : result A) (k : A -> result B) (b : B) :
  bind r k = Ok b -> exists a, r = Ok a /\ k a = Ok b.
Proof. destruct r as [a |]; simpl; [eauto | discriminate]. Qed.

(** ** The iteration of the trailing-stop engine, case by case *)

Section EngineFacts.

Variables (risk_pct atr_mult : Q).

Local Abbreviation entry_step := (entry_step risk_pct atr_mult).
Local Abbreviation trailing_step := (trailing_step atr_mult).
Local Abbreviation bar_step := (bar_step risk_pct atr_mult).
Local Abbreviation run_bars := (run_bars risk_pct atr_mult).
Local Abbreviation trace := (trace risk_pct atr_mult).

(** The entry part either leaves the state alone (its test fails) or
    divides by the stop distance. *)
Lemma entry_step_skip (s : State) (b : Bar) :
  entry_test s b = false -> entry_step s b = Ok s.
Proof.
  unfold entry_test, entry_step. intro H.
  apply orb_false_iff in H. destruct H as [-> ->]. reflexivity.
Qed.

Lemma entry_step_fault (s : State) (b : Bar) :
  entry_step s b = DivByZero <->
  entry_test s b = true /\ atr_mult * ATR b == 0.
Proof.
  unfold entry_test, entry_step.
  destruct (long_entry_test s b); [| destruct (short_entry_test s b)]; simpl.
  - destruct (div_cases (risk_pct * equity s) (atr_mult * ATR b))
      as [[H ->] | [H ->]]; simpl; intuition discriminate.
  - destruct (div_cases (risk_pct * equity s) (atr_mult * ATR b))
      as [[H ->] | [H ->]]; simpl; intuition discriminate.
  - intuition discriminate.
Qed.

(** What the entry part leaves behind when it enters. *)
Lemma entry_step_enter (s s1 : State) (b : Bar) :
  entry_test s b = true -> entry_step s b = Ok s1 ->
  ~ atr_mult * ATR b == 0 /\
  equity s1 = equity s /\ trades s1 = trades s /\
  entry_price s1 = Close b /\
  ((long_entry_test s b = true /\
    position s1 = risk_pct * equity s / (atr_mult * ATR b) /\
    trail_stop s1 = Close b - atr_mult * ATR b) \/
   (long_entry_test s b = false /\ short_entry_test s b = true /\
    position s1 = - (risk_pct * equity s / (atr_mult * ATR b)) /\
    trail_stop s1 = Close b + atr_mult * ATR b)).
Proof.
  unfold entry_test, entry_step.
  destruct (long_entry_test s b); [| destruct (short_entry_test s b)];
    simpl; try discriminate; intros _;
    destruct (div_cases (risk_pct * equity s) (atr_mult * ATR b))
      as [[H ->] | [H ->]]; simpl; try discriminate;
    intro E; injection E as <-; simpl; intuition.
Qed.

(** The trailing-stop part never touches the entry price, and books every
    profit or loss on both the equity and the trade log. *)
Lemma trailing_step_cases (s : State) (b : Bar) :
  let s' := trailing_step s b in
  entry_price s' = entry_price s /\
  ((0 < position s /\
    trail_stop s' = pymax (trail_stop s) (Close b - atr_mult * ATR b) /\
    ((Close b <= trail_stop s' /\ position s' = 0 /\
      equity s' = equity s + position s * (Close b - entry_price s) /\
      trades s' = trades s ++ [position s * (Close b - entry_price s)]) \/
     (trail_stop s' < Close b /\ position s' = position s /\
      equity s' = equity s /\ trades s' = trades s))) \/
   (position s < 0 /\
    trail_stop s' = pymin (trail_stop s) (Close b + atr_mult * ATR b) /\
    ((trail_stop s' <= Close b /\ position s' = 0 /\
      equity s' = equity s + position s * (Close b - entry_price s) /\
      trades s' = trades s ++ [position s * (Close b - entry_price s)]) \/
     (Close b < trail_stop s' /\ position s' = position s /\
      equity s' = equity s /\ trades s' = trades s))) \/
   (position s == 0 /\ s' = s)).
Proof.
  unfold trailing_step. cbv zeta.
  destruct (Qlt_bool 0 (position s)) eqn:Hl.
  - apply Qlt_bool_true in Hl.
    destruct (Qle_bool (Close b) _) eqn:Hs; simpl.
    + apply Qle_bool_iff in Hs. split; [reflexivity |]. left. intuition.
    + apply Qle_bool_false in Hs. split; [reflexivity |]. left.
      split; [exact Hl |]. split; [reflexivity |]. right. intuition.
  - apply Qlt_bool_false in Hl.
    destruct (Qlt_bool (position s) 0) eqn:Hn.
    + apply Qlt_bool_true in Hn.
      destruct (Qle_bool _ (Close b)) eqn:Hs; simpl.
      * apply Qle_bool_iff in Hs. split; [reflexivity |]. right. left.
        intuition.
      * apply Qle_bool_false in Hs. split; [reflexivity |]. right. left.
        split; [exact Hn |]. split; [reflexivity |]. right. intuition.
    + apply Qlt_bool_false in Hn. split; [reflexivity |]. right. right.
      split; [lra | reflexivity].
Qed.

End EngineFacts.

Section RunFacts.

Variables (risk_pct atr_mult : Q).

Local Abbreviation bar_step := (bar_step risk_pct atr_mult).
Local Abbreviation trace := (trace risk_pct atr_mult).

(** While a position of one sign stays open over an iteration, no entry
    happened in it and the stop moved by the ratchet formula. *)
Lemma ratchet_step (s s' : State) (b : Bar) :
  bar_step s b = Ok s' ->
  (0 < position s -> 0 < position s' ->
   trail_stop s' = pymax (trail_stop s) (Close b - atr_mult * ATR b)) /\
  (position s < 0 -> position s' < 0 ->
   trail_stop s' = pymin (trail_stop s) (Close b + atr_mult * ATR b)).
Proof.
  unfold bar_step. intro H.
  apply bind_ok in H. destruct H as (s1 & He & Hs). injection Hs as <-.
  destruct (entry_test s b) eqn:Ht.
  - (* an entry: the new position is stopped at once or has the other sign *)
    destruct (entry_step_enter _ _ s s1 b Ht He)
      as (Hd & _ & _ & _ & [(Hl & Hp & Htr) | (Hl & Hsh & Hp & Htr)]);
      pose proof (trailing_step_cases atr_mult s1 b) as (_ & Hc);
      cbv zeta in Hc.
    + unfold long_entry_test in Hl. apply andb_true_iff in Hl.
      destruct Hl as (_ & Hl). apply Qle_bool_iff in Hl.
      split; [intros; lra |]. intros _ Hneg.
      destruct Hc as [(Hpos & Hts & [(? & Hz & _) | (Hlt & Hz & _)])
                     | [(Hn & Hts & [(? & Hz & _) | (Hlt & Hz & _)])
                       | (Hz & Heq)]].
      * rewrite Hz in Hneg. lra.
      * rewrite Hz in Hneg. lra.
      * rewrite Hz in Hneg. lra.
      * rewrite Hts, Htr in Hlt.
        pose proof (pymin_le_l (Close b - atr_mult * ATR b)
                      (Close b + atr_mult * ATR b)).
        pose proof (pymin_le_r (Close b - atr_mult * ATR b)
                      (Close b + atr_mult * ATR b)).
        assert (atr_mult * ATR b == 0) by lra. contradiction.
      * rewrite Heq in Hneg. lra.
    + unfold short_entry_test in Hsh. apply andb_true_iff in Hsh.
      destruct Hsh as (_ & Hsh). apply Qle_bool_iff in Hsh.
      split; [| intros; lra]. intros _ Hpos'.
      destruct Hc as [(Hpos & Hts & [(? & Hz & _) | (Hlt & Hz & _)])
                     | [(Hn & Hts & [(? & Hz & _) | (Hlt & Hz & _)])
                       | (Hz & Heq)]].
      * rewrite Hz in Hpos'. lra.
      * rewrite Hts, Htr in Hlt.
        pose proof (pymax_ge_l (Close b + atr_mult * ATR b)
                      (Close b - atr_mult * ATR b)).
        pose proof (pymax_ge_r (Close b + atr_mult * ATR b)
                      (Close b - atr_mult * ATR b)).
        assert (atr_mult * ATR b == 0) by lra. contradiction.
      * rewrite Hz in Hpos'. lra.
      * rewrite Hz in Hpos'. lra.
      * rewrite Heq in Hpos'. lra.
  - (* no entry: only the trailing-stop part ran *)
    rewrite (entry_step_skip _ _ s b Ht) in He. injection He as <-.
    pose proof (trailing_step_cases atr_mult s b) as (_ & Hc).
    cbv zeta in Hc.
    destruct Hc as [(Hpos & Hts & _) | [(Hn & Hts & _) | (Hz & Heq)]].
    + split; [intros; exact Hts | intros; lra].
    + split; [intros; lra | intros; exact Hts].
    + split; intros; lra.
Qed.

(** The trace lists one state per bar, each the result of one iteration
    from the state before. *)
Lemma trace_length (s0 : State) (df : list Bar) (l : list State) :
  trace s0 df = Ok l -> length l = length df.
Proof.
  revert s0 l. induction df as [| b df IH]; intros s0 l H; simpl in H.
  - injection H as <-. reflexivity.
  - apply bind_ok in H. destruct H as (s' & _ & H).
    apply bind_ok in H. destruct H as (l' & H & E). injection E as <-.
    simpl. f_equal. eauto.
Qed.

Lemma trace_step (s0 : State) (df : list Bar) (l : list State) :
  trace s0 df = Ok l ->
  forall k s s' b,
    nth_error (s0 :: l) k = Some s -> nth_error l k = Some s' ->
    nth_error df k = Some b -> bar_step s b = Ok s'.
Proof.
  revert s0 l. induction df as [| b0 df IH]; intros s0 l H k s s' b Hs Hs' Hb.
  - destruct k; discriminate.
  - simpl in H. apply bind_ok in H. destruct H as (s1 & H1 & H).
    apply bind_ok in H. destruct H as (l' & H & E). injection E as <-.
    destruct k as [| k]; simpl in *.
    + congruence.
    + eapply IH; eauto.
Qed.

End RunFacts.

(** ** Zero stop distance (C1) *)

(** An iteration fails exactly when its entry part does. *)
Lemma bar_step_fault (risk_pct atr_mult : Q) (s : State) (b : Bar) :
  bar_step risk_pct atr_mult s b = DivByZero <->
  entry_test s b = true /\ atr_mult * ATR b == 0.
Proof.
  rewrite <- entry_step_fault with (risk_pct := risk_pct).
  unfold bar_step.
  destruct (entry_step risk_pct atr_mult s b); simpl; split; congruence.
Qed.

Lemma bar_step_returns (risk_pct atr_mult : Q) (s : State) (b : Bar) :
  ~ atr_mult * ATR b == 0 ->
  exists s', bar_step risk_pct atr_mult s b = Ok s'.
Proof.
  intro Hd. destruct (bar_step risk_pct atr_mult s b) as [s' |] eqn:E.
  - now exists s'.
  - exfalso. apply Hd. now apply bar_step_fault in E.
Qed.

(** C1, as the code has it.  The entry part has no test on the stop
    distance.  It is skipped when the test on signal and position fails.
    When that test holds, [risk_amount / stop_distance] is computed with
    the divisor [atr_mult * ATR] whatever its value or sign: with a divisor
    that is not zero the entry is made (size, entry price and stop are
    set, long on coin 2 and short on coin 1), with the divisor zero the
    division by zero is made.  So an iteration divides by zero exactly
    when the entry test holds on a bar whose stop distance is zero, and
    never on a bar whose stop distance is not zero. *)
Theorem entry_division_unguarded (risk_pct atr_mult : Q) (s : State) (b : Bar) :
  (entry_test s b = false -> entry_step risk_pct atr_mult s b = Ok s) /\
  (long_entry_test s b = true -> ~ atr_mult * ATR b == 0 ->
   entry_step risk_pct atr_mult s b
   = Ok (mkState (equity s) (risk_pct * equity s / (atr_mult * ATR b))
           (Close b) (Close b - atr_mult * ATR b) (trades s))) /\
  (long_entry_test s b = false -> short_entry_test s b = true ->
   ~ atr_mult * ATR b == 0 ->
   entry_step risk_pct atr_mult s b
   = Ok (mkState (equity s) (- (risk_pct * equity s / (atr_mult * ATR b)))
           (Close b) (Close b + atr_mult * ATR b) (trades s))) /\
  (entry_test s b = true -> atr_mult * ATR b == 0 ->
   entry_step risk_pct atr_mult s b = DivByZero) /\
  (bar_step risk_pct atr_mult s b = DivByZero <->
   entry_test s b = true /\ atr_mult * ATR b == 0) /\
  (~ atr_mult * ATR b == 0 ->
   exists s', bar_step risk_pct atr_mult s b = Ok s').
Proof.
  split; [apply entry_step_skip |].
  split.
  { intros Hl Hd. unfold entry_step. rewrite Hl.
    now rewrite div_ok. }
  split.
  { intros Hl Hs Hd. unfold entry_step. rewrite Hl, Hs.
    now rewrite div_ok. }
  split.
  { intros Ht Hz. apply entry_step_fault. auto. }
  split; [apply bar_step_fault | apply bar_step_returns].
Qed.

Lemma entry_division_unguarded_witness :
  entry_step default_risk default_mult (mkState 10000 5 100 94 [])
    (mkBar 100 0 2) = Ok (mkState 10000 5 100 94 []) /\
  entry_step default_risk (- (3)) (init_state default_capital)
    (mkBar 100 2 2)
  = Ok (mkState default_capital
          (default_risk * default_capital / (- (3) * 2)) 100
          (100 - - (3) * 2) []) /\
  entry_step default_risk default_mult (init_state default_capital)
    (mkBar 100 0 1) = DivByZero /\
  exists s', bar_step default_risk default_mult (init_state default_capital)
               (mkBar 100 2 2) = Ok s'.
Proof.
  pose proof (entry_division_unguarded default_risk default_mult
                (mkState 10000 5 100 94 []) (mkBar 100 0 2))
    as (Hskip & _).
  pose proof (entry_division_unguarded default_risk (- (3))
                (init_state default_capital) (mkBar 100 2 2))
    as (_ & Hlong & _).
  pose proof (entry_division_unguarded default_risk default_mult
                (init_state default_capital) (mkBar 100 0 1))
    as (_ & _ & _ & Hzero & _).
  pose proof (entry_division_unguarded default_risk default_mult
                (init_state default_capital) (mkBar 100 2 2))
    as (_ & _ & _ & _ & _ & Hok).
  split; [apply Hskip; reflexivity |].
  split; [apply Hlong; [reflexivity | vm_compute; discriminate] |].
  split; [apply Hzero; reflexivity |].
  apply Hok. vm_compute. discriminate.
Defined.

(** C1 as stated fails: on [flat_bar] (close 100, ATR 0, coin 2) the stop
    distance is zero, and from the initial state the entry part is not
    skipped: its test holds and the division is made with divisor zero. *)
Lemma zero_atr_entry_not_skipped :
  default_mult * ATR flat_bar == 0 /\
  entry_test (init_state default_capital) flat_bar = true /\
  entry_step default_risk default_mult (init_state default_capital) flat_bar
    <> Ok (init_state default_capital) /\
  bar_step default_risk default_mult (init_state default_capital) flat_bar
    = DivByZero.
Proof.
  split; [reflexivity |]. split; [reflexivity |].
  split; [vm_compute; discriminate | reflexivity].
Qed.

(** ** Positions that end (C2) *)

(** C2 at its failing input.  On [reversal_df] the first bar (coin 1) opens
    a short position at 100; the second bar (coin 2, close 90) replaces it
    by a long position.  The short position ended with a profit of
    [position * (90 - 100)], which is not zero, and yet the trade log is
    still empty and the equity is still the initial capital. *)
Theorem reversal_books_no_trade :
  exists s1 s2,
    trace default_risk default_mult (init_state default_capital) reversal_df
      = Ok [s1; s2] /\
    position s1 < 0 /\ entry_price s1 == 100 /\
    ~ position s1 * (90 - entry_price s1) == 0 /\
    0 < position s2 /\ entry_price s2 == 90 /\
    trades s2 = [] /\ equity s2 == default_capital.
Proof.
  eexists. eexists. split; [vm_compute; reflexivity |].
  simpl. repeat split; try reflexivity; vm_compute; congruence.
Qed.

(** ** The ratchet (C3) *)

(** C3.  Along the states at the end of the bars of a run: over any stretch
    of bars [i..j] at whose ends the position is long throughout,
    [trail_stop] at [i] is at most [trail_stop] at [j]; if it is short
    throughout, at least.  From one such bar to the next the stop is
    [max(trail_stop, close - atr_mult * ATR)] while long and
    [min(trail_stop, close + atr_mult * ATR)] while short. *)
Theorem monotonic_ratchet (risk_pct atr_mult : Q)
    (s0 : State) (df : list Bar) (l : list State) :
  trace risk_pct atr_mult s0 df = Ok l ->
  (forall i j si sj,
      (i <= j)%nat -> nth_error l i = Some si -> nth_error l j = Some sj ->
      ((forall k sk, (i <= k <= j)%nat -> nth_error l k = Some sk ->
                     0 < position sk) ->
       trail_stop si <= trail_stop sj) /\
      ((forall k sk, (i <= k <= j)%nat -> nth_error l k = Some sk ->
                     position sk < 0) ->
       trail_stop sj <= trail_stop si)) /\
  (forall k s s' b,
      nth_error l k = Some s -> nth_error l (S k) = Some s' ->
      nth_error df (S k) = Some b ->
      (0 < position s -> 0 < position s' ->
       trail_stop s' = pymax (trail_stop s) (Close b - atr_mult * ATR b)) /\
      (position s < 0 -> position s' < 0 ->
       trail_stop s' = pymin (trail_stop s) (Close b + atr_mult * ATR b))).
Proof.
  intro Ht.
  assert (Hstep : forall k s s' b,
             nth_error l k = Some s -> nth_error l (S k) = Some s' ->
             nth_error df (S k) = Some b ->
             bar_step risk_pct atr_mult s b = Ok s').
  { intros k s s' b Hs Hs' Hb.
    apply (trace_step _ _ _ _ _ Ht (S k) s s' b); auto. }
  split.
  - intros i j si sj Hij Hi Hj.
    pose proof (trace_length _ _ _ _ _ Ht) as Hlen.
    revert sj Hj. induction Hij as [| j Hij IH]; intros sj Hj.
    + assert (si = sj) by congruence. subst sj. split; intros; lra.
    + destruct (nth_error l j) as [sm |] eqn:Hm.
      2:{ apply nth_error_None in Hm.
          assert (nth_error l (S j) <> None) by congruence.
          apply nth_error_Some in H. lia. }
      destruct (nth_error df (S j)) as [b |] eqn:Hb.
      2:{ apply nth_error_None in Hb.
          assert (nth_error l (S j) <> None) by congruence.
          apply nth_error_Some in H. lia. }
      destruct (IH sm eq_refl) as (IHl & IHs).
      destruct (ratchet_step _ _ _ _ _ (Hstep j sm sj b Hm Hj Hb))
        as (Rl & Rs).
      split; intro Hall.
      * assert (0 < position sm) by (apply (Hall j); [lia | exact Hm]).
        assert (0 < position sj) by (apply (Hall (S j)); [lia | exact Hj]).
        rewrite (Rl H H0).
        pose proof (pymax_ge_l (trail_stop sm)
                      (Close b - atr_mult * ATR b)).
        assert (trail_stop si <= trail_stop sm).
        { apply IHl. intros k sk Hk. apply Hall. lia. }
        lra.
      * assert (position sm < 0) by (apply (Hall j); [lia | exact Hm]).
        assert (position sj < 0) by (apply (Hall (S j)); [lia | exact Hj]).
        rewrite (Rs H H0).
        pose proof (pymin_le_l (trail_stop sm)
                      (Close b + atr_mult * ATR b)).
        assert (trail_stop sm <= trail_stop si).
        { apply IHs. intros k sk Hk. apply Hall. lia. }
        lra.
  - intros k s s' b Hs Hs' Hb.
    apply (ratchet_step risk_pct). now apply (Hstep k).
Qed.

Lemma round_trip_trace :
  trace default_risk default_mult (init_state default_capital) round_trip_df
  = Ok round_trip_states.
Proof. vm_compute. reflexivity. Qed.

Lemma monotonic_ratchet_witness :
  exists si sj,
    nth_error round_trip_states 0 = Some si /\
    nth_error round_trip_states 1 = Some sj /\
    0 < position si /\ 0 < position sj /\
    trail_stop si <= trail_stop sj.
Proof.
  eexists. eexists.
  split; [reflexivity |]. split; [reflexivity |].
  split; [reflexivity |]. split; [reflexivity |].
  refine (proj1 (proj1 (monotonic_ratchet default_risk default_mult
                          (init_state default_capital) round_trip_df
                          round_trip_states round_trip_trace)
                   0%nat 1%nat _ _ _ eq_refl eq_refl) _).
  - lia.
  - intros k sk Hk Hsk.
    assert (Hk' : k = 0%nat \/ k = 1%nat) by lia.
    destruct Hk' as [-> | ->]; vm_compute in Hsk; injection Hsk as <-;
      vm_compute; reflexivity.
Defined.

(** ** Equity and the trade log (C4) *)

Lemma entry_step_keeps (risk_pct atr_mult : Q) (s s1 : State) (b : Bar) :
  entry_step risk_pct atr_mult s b = Ok s1 ->
  equity s1 = equity s /\ trades s1 = trades s.
Proof.
  intro He. destruct (entry_test s b) eqn:Ht.
  - destruct (entry_step_enter _ _ _ _ _ Ht He) as (_ & ? & ? & _). auto.
  - rewrite (entry_step_skip _ _ _ _ Ht) in He. injection He as <-. auto.
Qed.

(** One iteration adds the same amount to the equity and to the sum of
    the trade log. *)
Lemma bar_step_conserves (risk_pct atr_mult : Q) (s s' : State) (b : Bar) :
  bar_step risk_pct atr_mult s b = Ok s' ->
  equity s' - sum (trades s') == equity s - sum (trades s).
Proof.
  unfold bar_step. intro H.
  apply bind_ok in H. destruct H as (s1 & He & Hs). injection Hs as <-.
  destruct (entry_step_keeps _ _ _ _ _ He) as (<- & <-).
  pose proof (trailing_step_cases atr_mult s1 b) as (_ & Hc). cbv zeta in Hc.
  destruct Hc as [(_ & _ & [(_ & _ & -> & ->) | (_ & _ & -> & ->)])
                 | [(_ & _ & [(_ & _ & -> & ->) | (_ & _ & -> & ->)])
                   | (_ & ->)]];
    try rewrite sum_snoc; lra.
Qed.

Lemma run_bars_conserves (risk_pct atr_mult : Q) (df : list Bar) :
  forall s s', run_bars risk_pct atr_mult s df = Ok s' ->
               equity s' - sum (trades s') == equity s - sum (trades s).
Proof.
  induction df as [| b df IH]; intros s s' H; simpl in H.
  - injection H as <-. reflexivity.
  - apply bind_ok in H. destruct H as (s1 & H1 & H).
    rewrite (IH _ _ H). now apply bar_step_conserves in H1.
Qed.

(** The loop returns whenever no bar has a zero stop distance. *)
Lemma run_bars_total (risk_pct atr_mult : Q) (df : list Bar) :
  Forall (fun b => ~ atr_mult * ATR b == 0) df ->
  forall s, exists s', run_bars risk_pct atr_mult s df = Ok s'.
Proof.
  induction 1 as [| b df Hb _ IH]; intro s; simpl.
  - now exists s.
  - destruct (bar_step_returns risk_pct atr_mult s b Hb) as (s1 & ->).
    simpl. apply IH.
Qed.

(** The loop of the plot variant is the loop of the engine, and its curve
    grows by the equity at the end of each bar. *)
Lemma run_curve_trace (risk_pct atr_mult : Q) (df : list Bar) :
  forall s curve s' curve',
    Plot.run_curve risk_pct atr_mult s curve df = Ok (s', curve') ->
    run_bars risk_pct atr_mult s df = Ok s' /\
    exists l, trace risk_pct atr_mult s df = Ok l /\
              curve' = curve ++ map equity l.
Proof.
  induction df as [| b df IH]; intros s curve s' curve' H; simpl in H.
  - injection H as <- <-. split; [reflexivity |].
    exists []. simpl. now rewrite app_nil_r.
  - apply bind_ok in H. destruct H as (s1 & H1 & H).
    destruct (IH _ _ _ _ H) as (Hr & l & Hl & ->).
    simpl. rewrite H1. simpl. split; [exact Hr |].
    exists (s1 :: l). rewrite Hl. simpl. split; [reflexivity |].
    now rewrite <- app_assoc.
Qed.

Lemma last_default_irrelevant {A : Type} (l : list A) (d d' : A) :
  l <> [] -> last l d = last l d'.
Proof.
  induction l as [| x l IH]; intro H; [congruence |].
  destruct l as [| y l]; [reflexivity |].
  change (last (y :: l) d = last (y :: l) d'). apply IH. discriminate.
Qed.

Lemma last_cons_shift {A : Type} (l : list A) (a d : A) :
  last (a :: l) d = last l a.
Proof.
  destruct l as [| x l]; [reflexivity |].
  change (last (x :: l) d = last (x :: l) a).
  apply last_default_irrelevant. discriminate.
Qed.

Lemma last_map_default {A B : Type} (f : A -> B) (l : list A) (d : A) :
  last (map f l) (f d) = f (last l d).
Proof.
  induction l as [| x l IH]; [reflexivity |].
  destruct l as [| y l]; [reflexivity |]. exact IH.
Qed.

Lemma trace_last (risk_pct atr_mult : Q) (df : list Bar) :
  forall s l, trace risk_pct atr_mult s df = Ok l ->
              run_bars risk_pct atr_mult s df = Ok (last l s).
Proof.
  induction df as [| b df IH]; intros s l H; simpl in H.
  - injection H as <-. reflexivity.
  - apply bind_ok in H. destruct H as (s1 & H1 & H).
    apply bind_ok in H. destruct H as (l' & H & E). injection E as <-.
    simpl run_bars. rewrite H1. simpl bind. rewrite (IH _ _ H).
    f_equal. symmetry. apply last_cons_shift.
Qed.

Lemma mean_times_length (l : list Q) :
  l <> [] -> inject_Z (Z.of_nat (length l)) * mean l == sum l.
Proof.
  intro Hl. unfold mean. field.
  destruct l as [| x l]; [congruence |].
  unfold Qeq. simpl. lia.
Qed.

(** C4.  The equity the loop ends with is the initial capital plus the sum
    of the trade log.  For the trailing-stop script, which returns the
    length and the mean of the log, this reads [initial_capital + n * avg];
    for the plot variant it is the last entry of the returned curve against
    the returned log.  The loop returns on every frame without a zero stop
    distance. *)
Theorem equity_conservation
    (df : list Bar) (initial_capital risk_pct atr_mult : Q) :
  (forall s,
      run_bars risk_pct atr_mult (init_state initial_capital) df = Ok s ->
      equity s == initial_capital + sum (trades s)) /\
  (forall final_equity n avg,
      TrailingStop.run_tom_basso_coin_toss df initial_capital risk_pct atr_mult
        = Ok (final_equity, n, avg) ->
      final_equity == initial_capital + inject_Z (Z.of_nat n) * avg) /\
  (forall equity_curve trade_log,
      Plot.run_tom_basso_coin_toss df initial_capital risk_pct atr_mult
        = Ok (equity_curve, trade_log) ->
      last equity_curve initial_capital == initial_capital + sum trade_log) /\
  (Forall (fun b => ~ atr_mult * ATR b == 0) df ->
   exists s,
     run_bars risk_pct atr_mult (init_state initial_capital) df = Ok s).
Proof.
  assert (Hrun : forall s,
             run_bars risk_pct atr_mult (init_state initial_capital) df = Ok s ->
             equity s == initial_capital + sum (trades s)).
  { intros s H. apply run_bars_conserves in H. simpl in H.
    unfold sum at 2 in H. simpl in H. lra. }
  split; [exact Hrun |]. split; [| split].
  - unfold TrailingStop.run_tom_basso_coin_toss.
    intros final_equity n avg H.
    apply bind_ok in H. destruct H as (s & Hs & E).
    injection E as <- <- <-. rewrite (Hrun s Hs).
    destruct (trades s) as [| x l] eqn:Et.
    + simpl. unfold sum. simpl. lra.
    + rewrite mean_times_length by discriminate. reflexivity.
  - unfold Plot.run_tom_basso_coin_toss. intros equity_curve trade_log H.
    apply bind_ok in H. destruct H as ((s & curve) & Hs & E).
    injection E as <- <-. simpl.
    destruct (run_curve_trace _ _ _ _ _ _ _ Hs) as (Hr & l & Hl & ->).
    pose proof (trace_last _ _ _ _ _ Hl) as Hlast.
    rewrite Hr in Hlast. injection Hlast as Hlast.
    rewrite <- (Hrun s Hr). rewrite Hlast.
    change ([initial_capital] ++ map equity l)
      with (map equity (init_state initial_capital :: l)).
    change initial_capital with (equity (init_state initial_capital)) at 2.
    rewrite last_map_default, last_cons_shift. reflexivity.
  - intro Hall. now apply run_bars_total.
Qed.

Lemma equity_conservation_witness :
  exists final_equity n avg,
    TrailingStop.run_tom_basso_coin_toss round_trip_df default_capital
      default_risk default_mult = Ok (final_equity, n, avg) /\
    final_equity == default_capital + inject_Z (Z.of_nat n) * avg.
Proof.
  eexists. eexists. eexists. split; [vm_compute; reflexivity |].
  apply (proj1 (proj2 (equity_conservation round_trip_df default_capital
                         default_risk default_mult))).
  vm_compute. reflexivity.
Defined.

(** ** The equity curve of the plot variant (C5) *)

Lemma trace_prefix (risk_pct atr_mult : Q) (df : list Bar) :
  forall s0 l i s,
    trace risk_pct atr_mult s0 df = Ok l -> nth_error l i = Some s ->
    run_bars risk_pct atr_mult s0 (firstn (S i) df) = Ok s.
Proof.
  induction df as [| b df IH]; intros s0 l i s H Hi; simpl in H.
  - injection H as <-. destruct i; discriminate.
  - apply bind_ok in H. destruct H as (s1 & H1 & H).
    apply bind_ok in H. destruct H as (l' & H & E). injection E as <-.
    change (firstn (S i) (b :: df)) with (b :: firstn i df).
    simpl run_bars. rewrite H1. simpl bind.
    destruct i as [| i]; simpl in Hi.
    + injection Hi as <-. reflexivity.
    + now apply (IH s1 l' i s).
Qed.

(** C5, as the code has it.  The curve starts as [[initial_capital]] and
    gets one entry per bar: it has one entry more than the frame has bars,
    entry 0 is the initial capital, and entry [i + 1] is the equity at the
    end of bar [i] (counting bars from 0), whether a trade was booked on
    that bar or not. *)
Theorem equity_curve_shape
    (df : list Bar) (initial_capital risk_pct atr_mult : Q)
    (equity_curve trade_log : list Q) :
  Plot.run_tom_basso_coin_toss df initial_capital risk_pct atr_mult
    = Ok (equity_curve, trade_log) ->
  length equity_curve = S (length df) /\
  nth_error equity_curve 0 = Some initial_capital /\
  forall i, (i < length df)%nat ->
    exists s,
      run_bars risk_pct atr_mult (init_state initial_capital)
        (firstn (S i) df) = Ok s /\
      nth_error equity_curve (S i) = Some (equity s).
Proof.
  unfold Plot.run_tom_basso_coin_toss. intro H.
  apply bind_ok in H. destruct H as ((s & curve) & Hs & E).
  injection E as <- <-. simpl.
  destruct (run_curve_trace _ _ _ _ _ _ _ Hs) as (_ & l & Hl & ->).
  pose proof (trace_length _ _ _ _ _ Hl) as Hlen.
  split; [simpl; rewrite length_map; congruence |].
  split; [reflexivity |].
  intros i Hi. simpl.
  destruct (nth_error l i) as [si |] eqn:Hsi.
  - exists si. split.
    + now apply (trace_prefix _ _ _ _ l i si Hl).
    + rewrite nth_error_map, Hsi. reflexivity.
  - apply nth_error_None in Hsi. lia.
Qed.

Lemma equity_curve_shape_witness :
  exists equity_curve trade_log,
    Plot.run_tom_basso_coin_toss round_trip_df default_capital default_risk
      default_mult = Ok (equity_curve, trade_log) /\
    length equity_curve = 4%nat /\
    nth_error equity_curve 0 = Some default_capital.
Proof.
  eexists. eexists. split; [vm_compute; reflexivity |].
  refine (let H := equity_curve_shape round_trip_df default_capital
                     default_risk default_mult _ _ _ in
          conj (proj1 H) (proj1 (proj2 H))).
  vm_compute. reflexivity.
Defined.

(** C5 as stated fails on [round_trip_df] (three bars, the third closes the
    position at a loss): the returned curve has four entries, and its
    third entry is still the initial capital while the equity after the
    third bar is lower. *)
Lemma equity_curve_not_one_per_bar :
  exists equity_curve trade_log e s,
    Plot.run_tom_basso_coin_toss round_trip_df default_capital default_risk
      default_mult = Ok (equity_curve, trade_log) /\
    length equity_curve <> length round_trip_df /\
    nth_error equity_curve 2 = Some e /\
    run_bars default_risk default_mult (init_state default_capital)
      round_trip_df = Ok s /\
    e == default_capital /\ equity s < e.
Proof.
  eexists. eexists. eexists. eexists.
  split; [vm_compute; reflexivity |].
  split; [simpl; lia |].
  split; [reflexivity |].
  split; [vm_compute; reflexivity |].
  split; vm_compute; reflexivity.
Qed.

(** ** The long round trip (C7) *)

(** The three ways an iteration goes on a bar with coin 2. *)
Lemma long_entry_step (risk_pct atr_mult : Q) (s : State) (b : Bar) :
  TotalSignal b = 2%Z -> position s <= 0 -> ~ atr_mult * ATR b == 0 ->
  entry_step risk_pct atr_mult s b =
  Ok (mkState (equity s) (risk_pct * equity s / (atr_mult * ATR b))
        (Close b) (Close b - atr_mult * ATR b) (trades s)).
Proof.
  intros Hsig Hpos Hd. unfold entry_step, long_entry_test.
  rewrite Hsig. apply Qle_bool_iff in Hpos. rewrite Hpos. simpl.
  now rewrite div_ok.
Qed.

Lemma long_signal_no_entry (risk_pct atr_mult : Q) (s : State) (b : Bar) :
  TotalSignal b = 2%Z -> 0 < position s ->
  entry_step risk_pct atr_mult s b = Ok s.
Proof.
  intros Hsig Hpos. apply entry_step_skip.
  unfold entry_test, long_entry_test, short_entry_test. rewrite Hsig.
  apply Qle_bool_false in Hpos. rewrite Hpos. reflexivity.
Qed.

Lemma long_hold_step (atr_mult : Q) (s : State) (b : Bar) :
  0 < position s ->
  pymax (trail_stop s) (Close b - atr_mult * ATR b) < Close b ->
  trailing_step atr_mult s b =
  mkState (equity s) (position s) (entry_price s)
    (pymax (trail_stop s) (Close b - atr_mult * ATR b)) (trades s).
Proof.
  intros Hpos Hlt. unfold trailing_step.
  apply Qlt_bool_true in Hpos. rewrite Hpos.
  apply Qle_bool_false in Hlt. cbv zeta. rewrite Hlt. reflexivity.
Qed.

Lemma long_exit_step (atr_mult : Q) (s : State) (b : Bar) :
  0 < position s ->
  Close b <= pymax (trail_stop s) (Close b - atr_mult * ATR b) ->
  trailing_step atr_mult s b =
  mkState (equity s + position s * (Close b - entry_price s)) 0
    (entry_price s) (pymax (trail_stop s) (Close b - atr_mult * ATR b))
    (trades s ++ [position s * (Close b - entry_price s)]).
Proof.
  intros Hpos Hle. unfold trailing_step.
  apply Qlt_bool_true in Hpos. rewrite Hpos.
  apply Qle_bool_iff in Hle. cbv zeta. rewrite Hle. reflexivity.
Qed.

(** C7.  With a positive capital and a positive risk fraction, on closes
    100, 105, 95 with ATR 2, multiplier 3 and coin 2 on every bar: the first
    bar enters long at 100 with the size [risk_pct * capital / 6] and the
    stop at 94; the second bar lifts the stop to 99; the third bar, closing
    at 95, is at or below the stop, and books [size * (95 - 100)]: the
    returned equity is the capital less five times the size, with one
    trade. *)
Theorem long_round_trip (initial_capital risk_pct : Q) :
  0 < initial_capital -> 0 < risk_pct ->
  let size := risk_pct * initial_capital / 6 in
  exists s1 s2 s3 pnl final_equity avg,
    trace risk_pct 3 (init_state initial_capital) round_trip_df
      = Ok [s1; s2; s3] /\
    (position s1 == size /\ entry_price s1 == 100 /\ trail_stop s1 == 94 /\
     trades s1 = []) /\
    (position s2 == size /\ entry_price s2 == 100 /\ trail_stop s2 == 99 /\
     trades s2 = []) /\
    (position s3 == 0 /\ Close (mkBar 95 2 2) <= trail_stop s3 /\
     trades s3 = [pnl] /\ pnl == size * (95 - 100) /\
     equity s3 == initial_capital - 5 * size /\
     equity s3 < initial_capital) /\
    TrailingStop.run_tom_basso_coin_toss round_trip_df initial_capital
      risk_pct 3 = Ok (final_equity, 1%nat, avg) /\
    final_equity == initial_capital - 5 * size /\ avg == pnl.
Proof.
  intros Hc Hr size.
  assert (Hsize : 0 < risk_pct * initial_capital / (3 * 2)).
  { apply Qlt_shift_div_l; [reflexivity |].
    rewrite Qmult_0_l. now apply Qmult_lt_0_compat. }
  assert (Hsz : risk_pct * initial_capital / (3 * 2) == size).
  { unfold size. apply Qdiv_comp; reflexivity. }
  set (b1 := mkBar 100 2 2). set (b2 := mkBar 105 2 2).
  set (b3 := mkBar 95 2 2).
  set (e1 := mkState initial_capital (risk_pct * initial_capital / (3 * 2))
               100 (100 - 3 * 2) []).
  set (s1 := mkState initial_capital (risk_pct * initial_capital / (3 * 2))
               100 (pymax (100 - 3 * 2) (100 - 3 * 2)) []).
  set (s2 := mkState initial_capital (risk_pct * initial_capital / (3 * 2))
               100 (pymax (trail_stop s1) (105 - 3 * 2)) []).
  set (pnl := risk_pct * initial_capital / (3 * 2) * (95 - 100)).
  set (s3 := mkState (initial_capital + pnl) 0 100
               (pymax (trail_stop s2) (95 - 3 * 2)) ([] ++ [pnl])).
  assert (Ht1 : pymax (100 - 3 * 2) (100 - 3 * 2) == 94)
    by (vm_compute; reflexivity).
  assert (Ht2 : pymax (pymax (100 - 3 * 2) (100 - 3 * 2)) (105 - 3 * 2) == 99)
    by (vm_compute; reflexivity).
  assert (Ht3 : pymax (pymax (pymax (100 - 3 * 2) (100 - 3 * 2)) (105 - 3 * 2))
                  (95 - 3 * 2) == 99)
    by (vm_compute; reflexivity).
  assert (H1 : bar_step risk_pct 3 (init_state initial_capital) b1 = Ok s1).
  { unfold bar_step.
    rewrite long_entry_step;
      [| reflexivity | simpl; lra | vm_compute; discriminate].
    simpl bind. f_equal.
    apply (long_hold_step 3 e1 b1); simpl; [exact Hsize | lra]. }
  assert (H2 : bar_step risk_pct 3 s1 b2 = Ok s2).
  { unfold bar_step.
    rewrite long_signal_no_entry; [| reflexivity | exact Hsize].
    simpl bind. f_equal.
    apply (long_hold_step 3 s1 b2); simpl; [exact Hsize | lra]. }
  assert (H3 : bar_step risk_pct 3 s2 b3 = Ok s3).
  { unfold bar_step.
    rewrite long_signal_no_entry; [| reflexivity | exact Hsize].
    simpl bind. f_equal.
    apply (long_exit_step 3 s2 b3); simpl; [exact Hsize | lra]. }
  assert (Hpnl : pnl == size * (95 - 100)).
  { unfold pnl. rewrite Hsz. reflexivity. }
  assert (Hsize' : 0 < size) by (rewrite <- Hsz; exact Hsize).
  assert (Htrace : trace risk_pct 3 (init_state initial_capital) round_trip_df
                   = Ok [s1; s2; s3]).
  { unfold round_trip_df. fold b1 b2 b3.
    cbn [trace]. rewrite H1. cbn [bind]. rewrite H2. cbn [bind].
    rewrite H3. reflexivity. }
  exists s1, s2, s3, pnl, (initial_capital + pnl), (mean [pnl]).
  split; [exact Htrace |].
  split; [simpl; repeat split; try reflexivity; assumption |].
  split; [simpl; repeat split; try reflexivity; assumption |].
  split.
  { simpl. split; [reflexivity |]. split; [lra |]. split; [reflexivity |].
    split; [exact Hpnl |]. split; lra. }
  split.
  { unfold TrailingStop.run_tom_basso_coin_toss.
    rewrite (trace_last _ _ _ _ _ Htrace). reflexivity. }
  split; [lra |].
  unfold mean, sum. simpl. field.
Qed.

Lemma long_round_trip_witness :
  0 < default_capital /\ 0 < default_risk /\
  exists final_equity avg,
    TrailingStop.run_tom_basso_coin_toss round_trip_df default_capital
      default_risk 3 = Ok (final_equity, 1%nat, avg) /\
    final_equity == default_capital
                    - 5 * (default_risk * default_capital / 6).
Proof.
  assert (Hc : 0 < default_capital) by reflexivity.
  assert (Hr : 0 < default_risk) by reflexivity.
  split; [exact Hc |]. split; [exact Hr |].
  destruct (long_round_trip default_capital default_risk Hc Hr)
    as (_ & _ & _ & _ & final_equity & avg & _ & _ & _ & _ & Hrun & Heq & _).
  exists final_equity, avg. split; [exact Hrun | exact Heq].
Defined.

(** ** The fixed-notional baseline (C9) *)

Lemma v2_bar_step_cases (s : V2.State) (b : Bar) :
  (TotalSignal b = 2%Z /\ V2.position s == 0 /\
   V2.bar_step s b =
   (p <- div 100 (Close b) ;;
    Ok (V2.mkState (V2.equity s) p (Close b) (V2.trades s)))) \/
  (TotalSignal b = 1%Z /\ 0 < V2.position s /\
   V2.bar_step s b =
   Ok (V2.mkState
         (V2.equity s + V2.position s * (Close b - V2.entry_price s)) 0
         (V2.entry_price s)
         (V2.trades s ++ [V2.position s * (Close b - V2.entry_price s)]))) \/
  ((TotalSignal b <> 2%Z \/ ~ V2.position s == 0) /\
   (TotalSignal b <> 1%Z \/ V2.position s <= 0) /\
   V2.bar_step s b = Ok s).
Proof.
  unfold V2.bar_step. cbv zeta.
  destruct (Z.eqb_spec (TotalSignal b) 2) as [H2 | H2];
    destruct (Qeq_bool (V2.position s) 0) eqn:Hz; simpl.
  - left. apply Qeq_bool_iff in Hz. auto.
  - right. right. rewrite H2. simpl.
    apply Qeq_bool_neq in Hz. repeat split; auto. left. discriminate.
  - apply Qeq_bool_iff in Hz.
    destruct (Z.eqb_spec (TotalSignal b) 1) as [H1 | H1]; simpl.
    + assert (Hf : Qlt_bool 0 (V2.position s) = false)
        by (apply Qlt_bool_false; lra).
      rewrite Hf. right. right. repeat split; auto. right. lra.
    + right. right. auto.
  - apply Qeq_bool_neq in Hz.
    destruct (Z.eqb_spec (TotalSignal b) 1) as [H1 | H1]; simpl.
    + destruct (Qlt_bool 0 (V2.position s)) eqn:Hp.
      * apply Qlt_bool_true in Hp. right. left. auto.
      * apply Qlt_bool_false in Hp. right. right. auto.
    + right. right. auto.
Qed.

Lemma v2_step_nonneg (s s' : V2.State) (b : Bar) :
  0 < Close b -> 0 <= V2.position s -> V2.bar_step s b = Ok s' ->
  0 <= V2.position s'.
Proof.
  intros Hc Hp H.
  destruct (v2_bar_step_cases s b)
    as [(_ & _ & E) | [(_ & _ & E) | (_ & _ & E)]]; rewrite E in H.
  - rewrite div_ok in H by lra. injection H as <-. simpl.
    apply Qlt_le_weak, Qlt_shift_div_l; lra.
  - injection H as <-. simpl. lra.
  - injection H as <-. exact Hp.
Qed.

Lemma v2_trace_nonneg (df : list Bar) :
  Forall (fun b => 0 < Close b) df ->
  forall s, 0 <= V2.position s ->
  exists l, V2.trace s df = Ok l /\
            Forall (fun s' => 0 <= V2.position s') l.
Proof.
  induction 1 as [| b df Hb _ IH]; intros s Hs; simpl.
  - exists []. auto.
  - assert (Hex : exists s1, V2.bar_step s b = Ok s1).
    { destruct (v2_bar_step_cases s b)
        as [(_ & _ & E) | [(_ & _ & E) | (_ & _ & E)]]; rewrite E; eauto.
      rewrite div_ok by lra. simpl. eauto. }
    destruct Hex as (s1 & E). rewrite E. simpl.
    destruct (IH s1 (v2_step_nonneg _ _ _ Hb Hs E)) as (l & -> & Hl).
    simpl. exists (s1 :: l). split; [reflexivity |].
    constructor; [| exact Hl]. exact (v2_step_nonneg _ _ _ Hb Hs E).
Qed.

Lemma v2_trace_length (df : list Bar) :
  forall s l, V2.trace s df = Ok l -> length l = length df.
Proof.
  induction df as [| b df IH]; intros s l H; simpl in H.
  - injection H as <-. reflexivity.
  - apply bind_ok in H. destruct H as (s1 & _ & H).
    apply bind_ok in H. destruct H as (l' & H & E). injection E as <-.
    simpl. f_equal. eauto.
Qed.

Lemma v2_trace_last (df : list Bar) :
  forall s l, V2.trace s df = Ok l -> V2.run_bars s df = Ok (last l s).
Proof.
  induction df as [| b df IH]; intros s l H; simpl in H.
  - injection H as <-. reflexivity.
  - apply bind_ok in H. destruct H as (s1 & H1 & H).
    apply bind_ok in H. destruct H as (l' & H & E). injection E as <-.
    simpl V2.run_bars. rewrite H1. cbn [bind]. rewrite (IH _ _ H).
    f_equal. symmetry. apply last_cons_shift.
Qed.

(** C9, as the code has it.  On a frame of positive closes the baseline
    runs to the end and its position is never negative, at the end of any
    bar (one state per bar, the last one being the state the run ends
    in).  A coin 2 opens
    [100 / price] shares when the position is exactly 0 and does nothing
    otherwise; a coin 1 while not long does nothing; a coin 1 while long
    books the profit or loss on equity and trade log and sets the position
    to 0. *)
Theorem baseline_never_short (df : list Bar) (initial_capital : Q) :
  Forall (fun b => 0 < Close b) df ->
  (exists l,
      V2.trace (V2.init_state initial_capital) df = Ok l /\
      length l = length df /\
      V2.run_bars (V2.init_state initial_capital) df
      = Ok (last l (V2.init_state initial_capital)) /\
      Forall (fun s => 0 <= V2.position s) l) /\
  (forall s b,
      ~ Close b == 0 -> TotalSignal b = 2%Z -> V2.position s == 0 ->
      V2.bar_step s b =
      Ok (V2.mkState (V2.equity s) (100 / Close b) (Close b) (V2.trades s))) /\
  (forall s b,
      TotalSignal b = 2%Z -> ~ V2.position s == 0 ->
      V2.bar_step s b = Ok s) /\
  (forall s b,
      TotalSignal b = 1%Z -> V2.position s <= 0 -> V2.bar_step s b = Ok s) /\
  (forall s b,
      TotalSignal b = 1%Z -> 0 < V2.position s ->
      V2.bar_step s b =
      Ok (V2.mkState
            (V2.equity s + V2.position s * (Close b - V2.entry_price s)) 0
            (V2.entry_price s)
            (V2.trades s ++ [V2.position s * (Close b - V2.entry_price s)]))).
Proof.
  intro Hpos. split; [| split; [| split; [| split]]].
  - destruct (v2_trace_nonneg df Hpos (V2.init_state initial_capital))
      as (l & Hl & Hnn); [simpl; lra |].
    exists l. split; [exact Hl |].
    split; [exact (v2_trace_length df _ l Hl) |].
    split; [now apply v2_trace_last | exact Hnn].
  - intros s b Hnz H2 Hz.
    destruct (v2_bar_step_cases s b)
      as [(_ & _ & E) | [(H1 & _ & _) | ([H | H] & _ & _)]];
      try congruence; try contradiction.
    rewrite E, div_ok by exact Hnz. reflexivity.
  - intros s b H2 Hnz.
    destruct (v2_bar_step_cases s b)
      as [(_ & Hz & _) | [(H1 & _ & _) | (_ & _ & E)]];
      [contradiction | congruence | exact E].
  - intros s b H1 Hle.
    destruct (v2_bar_step_cases s b)
      as [(H2 & _ & _) | [(_ & Hp & _) | (_ & _ & E)]];
      [congruence | lra | exact E].
  - intros s b H1 Hp.
    destruct (v2_bar_step_cases s b)
      as [(H2 & _ & _) | [(_ & _ & E) | (_ & [H | H] & _)]];
      [congruence | exact E | congruence | lra].
Qed.

Lemma baseline_never_short_witness :
  Forall (fun b => 0 < Close b) baseline_df /\
  exists l,
    V2.trace (V2.init_state default_capital) baseline_df = Ok l /\
    length l = length baseline_df /\
    V2.run_bars (V2.init_state default_capital) baseline_df
    = Ok (last l (V2.init_state default_capital)) /\
    Forall (fun s => 0 <= V2.position s) l.
Proof.
  assert (H : Forall (fun b => 0 < Close b) baseline_df)
    by (repeat constructor).
  split; [exact H |].
  exact (proj1 (baseline_never_short baseline_df default_capital H)).
Defined.

(** C9 as stated fails on a close below zero: a coin 2 at the close -50
    opens [100 / (-50) = -2] shares, a negative position, and the coin 1
    of the next bar does not close it (the sale needs a position above
    zero): the position stays at -2 and nothing is ever booked. *)
Lemma negative_close_goes_short :
  exists s1 s2,
    V2.trace (V2.init_state default_capital)
      [mkBar (-50) 2 2; mkBar (-50) 2 1] = Ok [s1; s2] /\
    V2.position s1 == -2 /\ V2.position s1 < 0 /\
    V2.position s2 == -2 /\ V2.position s2 < 0 /\
    V2.trades s2 = [].
Proof.
  eexists. eexists. split; [vm_compute; reflexivity |].
  simpl. repeat split; vm_compute; reflexivity.
Qed.

(** ** Entry and stop on one bar (C10) *)

(** C10, as the code has it.  The hypotheses are on the values as the
    iteration computes them: the size [risk_amount / stop_distance] is
    above zero, the stop of a long entry [close - stop_distance] is below
    the close and the stop of a short entry [close + stop_distance] is
    above it.  Then, if the entry test holds, the position opened on this
    bar is still open at the end of it, on the right side of its stop, and
    nothing was booked; so if the iteration did book a trade, the entry
    test failed and the trade closes a position that was already open
    when the bar began.  The proof compares these values and takes their
    [max] and [min], and computes nothing else with them. *)
Theorem entry_bar_not_stopped (risk_pct atr_mult : Q) (s s' : State) (b : Bar) :
  bar_step risk_pct atr_mult s b = Ok s' ->
  0 < risk_pct * equity s / (atr_mult * ATR b) ->
  Close b - atr_mult * ATR b < Close b ->
  Close b < Close b + atr_mult * ATR b ->
  (entry_test s b = true ->
   trades s' = trades s /\ equity s' = equity s /\
   entry_price s' = Close b /\
   ((TotalSignal b = 2%Z /\ 0 < position s' /\ trail_stop s' < Close b) \/
    (TotalSignal b = 1%Z /\ position s' < 0 /\ Close b < trail_stop s'))) /\
  (trades s' <> trades s ->
   entry_test s b = false /\ ~ position s == 0).
Proof.
  unfold bar_step. intros H Hsize Hlong Hshort.
  apply bind_ok in H. destruct H as (s1 & He & Hs). injection Hs as <-.
  pose proof (trailing_step_cases atr_mult s1 b) as (Hep & Hc).
  cbv zeta in Hep, Hc.
  assert (Hentry : entry_test s b = true ->
            trades (trailing_step atr_mult s1 b) = trades s /\
            equity (trailing_step atr_mult s1 b) = equity s /\
            entry_price (trailing_step atr_mult s1 b) = Close b /\
            ((TotalSignal b = 2%Z /\ 0 < position (trailing_step atr_mult s1 b)
              /\ trail_stop (trailing_step atr_mult s1 b) < Close b) \/
             (TotalSignal b = 1%Z /\ position (trailing_step atr_mult s1 b) < 0
              /\ Close b < trail_stop (trailing_step atr_mult s1 b)))).
  { intro Ht.
    destruct (entry_step_enter _ _ s s1 b Ht He)
      as (_ & Heq & Htr & Hpr & [(Hl & Hp & Hst) | (_ & Hl & Hp & Hst)]).
    - unfold long_entry_test in Hl. apply andb_true_iff in Hl.
      destruct Hl as (Hsig & _). apply Z.eqb_eq in Hsig.
      rewrite Hp, Hst in Hc.
      destruct (pymax_spec (Close b - atr_mult * ATR b)
                  (Close b - atr_mult * ATR b)) as [(? & Em) | (_ & Em)];
        [lra |]. rewrite Em in Hc.
      destruct Hc as [(_ & Hts & [(Hle & _) | (Hlt & Hz & Hq & Hr)])
                     | [(Hn & _) | (Hz & _)]];
        try lra; try (rewrite Hts in Hle; lra).
      rewrite Hr, Hq, Hep, Hz. repeat split; auto.
    - unfold short_entry_test in Hl. apply andb_true_iff in Hl.
      destruct Hl as (Hsig & _). apply Z.eqb_eq in Hsig.
      rewrite Hp, Hst in Hc.
      destruct (pymin_spec (Close b + atr_mult * ATR b)
                  (Close b + atr_mult * ATR b)) as [(? & Em) | (_ & Em)];
        [lra |]. rewrite Em in Hc.
      destruct Hc as [(Hn & _)
                     | [(_ & Hts & [(Hle & _) | (Hlt & Hz & Hq & Hr)])
                       | (Hz & _)]];
        try lra; try (rewrite Hts in Hle; lra).
      rewrite Hr, Hq, Hep, Hz. repeat split; auto. right.
      repeat split; auto; lra. }
  split; [exact Hentry |].
  intro Hbooked.
  destruct (entry_test s b) eqn:Ht.
  - destruct (Hentry eq_refl) as (E & _). contradiction.
  - split; [reflexivity |].
    rewrite (entry_step_skip _ _ s b Ht) in He. injection He as <-.
    intro Hz. destruct Hc as [(? & _) | [(? & _) | (_ & E)]]; try lra.
    rewrite E in Hbooked. contradiction.
Qed.

Lemma entry_bar_not_stopped_witness :
  exists s',
    bar_step default_risk default_mult (init_state default_capital)
      (mkBar 100 2 2) = Ok s' /\
    trades s' = [] /\ 0 < position s' /\ trail_stop s' < 100.
Proof.
  eexists. split; [vm_compute; reflexivity |].
  destruct (proj1 (entry_bar_not_stopped default_risk default_mult
                     (init_state default_capital) _ (mkBar 100 2 2)
                     eq_refl eq_refl eq_refl eq_refl) eq_refl)
    as (Ht & _ & _ & [(_ & Hp & Hs) | (Hsig & _)]).
  - split; [exact Ht |]. split; [exact Hp | exact Hs].
  - discriminate Hsig.
Defined.

(** C10 as stated fails on [gap_df] with the default parameters.  The
    short position of the first bar is stopped on the second with a loss
    larger than the capital, which leaves a negative equity.  On the third
    bar (stop distance 30.27, coin 2, flat) the entry test holds and the
    size [risk_amount / stop_distance] is negative: the position just
    entered is handled as a short one, lies beyond its stop, and is closed
    on this same bar with a second trade, of zero profit. *)
Lemma gap_entry_stopped_same_bar :
  exists s1 s2 s3,
    trace default_risk default_mult (init_state default_capital) gap_df
      = Ok [s1; s2; s3] /\
    equity s2 < 0 /\ position s2 == 0 /\ length (trades s2) = 1%nat /\
    entry_test s2 (mkBar 200 (1009 # 100) 2) = true /\
    0 < default_mult * ATR (mkBar 200 (1009 # 100) 2) /\
    length (trades s3) = 2%nat /\ position s3 == 0 /\
    entry_price s3 == 200.
Proof.
  eexists. eexists. eexists. split; [vm_compute; reflexivity |].
  simpl. repeat split; vm_compute; reflexivity.
Qed.

(** ** The warm-up of the ATR (C6) *)

Lemma mask_zip (f : Q -> Q -> Q) (l1 l2 : list (option Q)) :
  mask (zip_with (nan2 f) l1 l2) = zip_with andb (mask l1) (mask l2).
Proof.
  unfold mask, zip_with. revert l2.
  induction l1 as [| a l1 IH]; intros [| b l2]; simpl; try reflexivity.
  rewrite IH. destruct a, b; reflexivity.
Qed.

Lemma mask_abs (l : list (option Q)) : mask (np_abs l) = mask l.
Proof.
  unfold mask, np_abs. rewrite map_map. apply map_ext.
  intros [x |]; reflexivity.
Qed.

Lemma mask_some {A : Type} (f : A -> Q) (l : list A) :
  mask (map (fun c => Some (f c)) l) = repeat true (length l).
Proof.
  unfold mask. rewrite map_map. simpl. apply map_const.
Qed.

Lemma removelast_map {A B : Type} (f : A -> B) (l : list A) :
  removelast (map f l) = map f (removelast l).
Proof.
  induction l as [| a l IH]; [reflexivity |].
  destruct l as [| b l]; [reflexivity |].
  change (f a :: removelast (map f (b :: l))
          = f a :: map f (removelast (b :: l))).
  now rewrite IH.
Qed.

Lemma removelast_repeat {A : Type} (x : A) (n : nat) :
  removelast (repeat x (S n)) = repeat x n.
Proof.
  induction n as [| n IH]; [reflexivity |].
  change (x :: removelast (repeat x (S n)) = x :: repeat x n).
  now rewrite IH.
Qed.

Lemma mask_shift (col : list (option Q)) :
  mask (shift col) = removelast (false :: mask col).
Proof.
  unfold mask, shift.
  change (false :: map is_valid col) with (map is_valid (None :: col)).
  now rewrite removelast_map.
Qed.

Lemma combine_andb_true (n : nat) :
  map (fun p : bool * bool => fst p && snd p)
    (combine (repeat true n) (repeat true n)) = repeat true n.
Proof.
  induction n as [| n IH]; simpl; [reflexivity |]. now rewrite IH.
Qed.

(** The true range has no value on the first row (no previous close) and a
    value on every other row. *)
Lemma true_range_mask (df : list Raw.Candle) :
  mask (true_range df) =
  match df with
  | [] => []
  | _ :: rest => false :: repeat true (length rest)
  end.
Proof.
  unfold true_range, np_maximum, col_sub.
  rewrite !mask_zip, !mask_abs, !mask_zip, mask_shift, !mask_some.
  destruct df as [| c rest]; [reflexivity |].
  cbn [length].
  change (false :: repeat true (S (length rest)))
    with (false :: true :: repeat true (length rest)).
  change (removelast (false :: true :: repeat true (length rest)))
    with (false :: removelast (repeat true (S (length rest)))).
  rewrite removelast_repeat.
  change (repeat true (S (length rest)))
    with (true :: repeat true (length rest)).
  unfold zip_with. cbn [combine map fst snd andb].
  now rewrite !combine_andb_true.
Qed.

Lemma true_range_length (df : list Raw.Candle) :
  length (true_range df) = length df.
Proof.
  pose proof (f_equal (@length bool) (true_range_mask df)) as H.
  unfold mask in H. rewrite length_map in H. rewrite H.
  destruct df; simpl; [reflexivity |]. now rewrite repeat_length.
Qed.

Lemma valid_values_length (w : list (option Q)) :
  length (valid_values w) = length (filter id (mask w)).
Proof.
  unfold valid_values, mask.
  induction w as [| [x |] w IH]; simpl; auto.
Qed.

Lemma window_mean_valid (n : nat) (w : list (option Q)) :
  (1 <= n)%nat ->
  is_valid (window_mean n w) = (n <=? length (filter id (mask w)))%nat.
Proof.
  intro Hn. unfold window_mean. rewrite <- valid_values_length.
  destruct (valid_values w) as [| v vs] eqn:E.
  - simpl. symmetry. apply Nat.leb_gt. lia.
  - destruct (Nat.ltb_spec (length (v :: vs)) n) as [H | H]; simpl.
    + symmetry. apply Nat.leb_gt. exact H.
    + symmetry. apply Nat.leb_le. exact H.
Qed.

Lemma firstn_repeat {A : Type} (x : A) (i n : nat) :
  (i <= n)%nat -> firstn i (repeat x n) = repeat x i.
Proof.
  revert n. induction i as [| i IH]; intros n H; [reflexivity |].
  destruct n as [| n]; [lia |]. simpl. f_equal. apply IH. lia.
Qed.

Lemma skipn_repeat {A : Type} (x : A) (j n : nat) :
  skipn j (repeat x n) = repeat x (n - j).
Proof.
  revert n. induction j as [| j IH]; intro n.
  - now rewrite Nat.sub_0_r.
  - destruct n as [| n]; [reflexivity |]. simpl. apply IH.
Qed.

Lemma filter_id_repeat_true (n : nat) :
  length (filter id (repeat true n)) = n.
Proof. induction n; simpl; auto. Qed.

(** On a column that lacks only its first value, the rolling mean over
    [n] rows has a value from row [n] on, and on no row before. *)
Lemma rolling_mean_mask (n k : nat) (col : list (option Q)) :
  (1 <= n)%nat -> mask col = false :: repeat true k ->
  mask (rolling_mean n col) = map (fun i => (n <=? i)%nat) (seq 0 (S k)).
Proof.
  intros Hn Hm. unfold rolling_mean, mask at 1.
  assert (Hlen : length col = S k).
  { pose proof (f_equal (@length bool) Hm) as H. unfold mask in H.
    rewrite length_map in H. simpl in H. now rewrite repeat_length in H. }
  rewrite Hlen, map_map. apply map_ext_in. intros i Hi.
  apply in_seq in Hi.
  rewrite window_mean_valid by exact Hn.
  unfold mask. rewrite <- skipn_map, <- firstn_map. fold (mask col).
  rewrite Hm. cbn [firstn]. rewrite firstn_repeat by lia.
  destruct (Nat.leb_spec n i) as [H | H].
  - replace (S i - n)%nat with (S (i - n)) by lia. cbn [skipn].
    rewrite skipn_repeat, filter_id_repeat_true.
    apply Nat.leb_le. lia.
  - replace (S i - n)%nat with 0%nat by lia. cbn [skipn filter id].
    rewrite filter_id_repeat_true. apply Nat.leb_gt. lia.
Qed.

Lemma map_fst_combine {A B : Type} (l1 : list A) (l2 : list B) :
  length l1 = length l2 -> map fst (combine l1 l2) = l1.
Proof.
  revert l2. induction l1 as [| a l1 IH]; intros [| b l2] H;
    simpl in *; try congruence.
  f_equal. apply IH. lia.
Qed.

Lemma map_snd_combine {A B : Type} (l1 : list A) (l2 : list B) :
  length l1 = length l2 -> map snd (combine l1 l2) = l2.
Proof.
  revert l2. induction l1 as [| a l1 IH]; intros [| b l2] H;
    simpl in *; try congruence.
  f_equal. apply IH. lia.
Qed.

Lemma rolling_mean_length (n : nat) (col : list (option Q)) :
  length (rolling_mean n col) = length col.
Proof. unfold rolling_mean. now rewrite length_map, length_seq. Qed.

(** The column [ATR] has no value on the first [n] rows and a value on
    every later row. *)
Lemma add_atr_mask (n : nat) (df : list Raw.Candle) :
  (1 <= n)%nat ->
  mask (rolling_mean n (true_range df)) =
  map (fun i => (n <=? i)%nat) (seq 0 (length df)).
Proof.
  intro Hn. destruct df as [| c rest]; [reflexivity |].
  apply rolling_mean_mask; [exact Hn |]. apply (true_range_mask (c :: rest)).
Qed.

(** [dropna] on a frame whose column [ATR] has values exactly from row
    [n] on (the rows being numbered from [k]). *)
Lemma dropna_mask (n : nat) (df : list Raw.Candle) :
  forall (k : nat) (atrs : list (option Q)) (col : list Z),
    length atrs = length df -> length col = length df ->
    mask atrs = map (fun i => (n <=? i)%nat) (seq k (length df)) ->
    let bars := dropna (combine (combine df atrs) col) in
    map Close bars = map Raw.Close (skipn (n - k) df) /\
    map TotalSignal bars = skipn (n - k) col /\
    map (fun b => Some (ATR b)) bars = skipn (n - k) atrs.
Proof.
  induction df as [| c df IH]; intros k atrs col Ha Hc Hm.
  - destruct atrs, col; try discriminate. simpl.
    now rewrite !skipn_nil.
  - destruct atrs as [| a atrs]; [discriminate |].
    destruct col as [| x col]; [discriminate |].
    simpl in Ha, Hc. cbn [length seq map mask] in Hm.
    injection Hm as Hv Hm.
    specialize (IH (S k) atrs col ltac:(lia) ltac:(lia) Hm).
    cbv zeta in IH. destruct IH as (IH1 & IH2 & IH3).
    cbv zeta. cbn [combine dropna flat_map].
    destruct (Nat.leb_spec n k) as [Hle | Hlt].
    + destruct a as [v |]; [| discriminate].
      replace (n - k)%nat with 0%nat by lia.
      replace (n - S k)%nat with 0%nat in IH1, IH2, IH3 by lia.
      cbn [skipn] in *. cbn [app map Close TotalSignal ATR].
      unfold dropna in IH1, IH2, IH3. now rewrite IH1, IH2, IH3.
    + destruct a as [v |]; [discriminate |].
      replace (n - k)%nat with (S (n - S k)) by lia.
      cbn [skipn app]. unfold dropna in IH1, IH2, IH3. auto.
Qed.

Section SignalFacts.

Variable G : Type.
Variable rand_index : nat -> G -> nat * G.

(** The list comprehension draws once per index, whatever the frame and
    the indices are. *)
Lemma signals_for_length {F I : Type} (df : F) (index : list I) :
  forall g, length (fst (signals_for G rand_index df index g)) = length index.
Proof.
  induction index as [| idx rest IH]; intro g; simpl; [reflexivity |].
  destruct (total_signal G rand_index df idx g) as [x g1].
  specialize (IH g1).
  destruct (signals_for G rand_index df rest g1) as [xs g2].
  simpl in *. now rewrite IH.
Qed.

(** The list comprehension is one draw per index, in order: its result
    does not depend on the frame nor on the indices. *)
Lemma signals_for_draws {F I : Type} (df : F) (index : list I) :
  forall g,
    signals_for G rand_index df index g
    = draws G rand_index (length index) g.
Proof.
  induction index as [| idx rest IH]; intro g; simpl; [reflexivity |].
  unfold total_signal.
  destruct (choice G rand_index [1%Z; 2%Z] g) as [x g1].
  now rewrite (IH g1).
Qed.

(** The frame after [add_total_signal]: the rows of [add_atr], each with
    its signal. *)
Lemma add_total_signal_frame (n : nat) (df : list Raw.Candle) (g : G) :
  let col := fst (signals_for G rand_index (add_atr df n)
                    (seq 0 (length (add_atr df n))) g) in
  fst (add_total_signal G rand_index (add_atr df n) g)
  = combine (combine df (rolling_mean n (true_range df))) col /\
  length col = length df /\
  fst (prepare G rand_index n df g)
  = dropna (combine (combine df (rolling_mean n (true_range df))) col).
Proof.
  cbv zeta. unfold prepare, add_total_signal.
  pose proof (signals_for_length (add_atr df n)
                (seq 0 (length (add_atr df n))) g) as Hl.
  destruct (signals_for G rand_index (add_atr df n)
              (seq 0 (length (add_atr df n))) g) as [col g'].
  simpl in *. split; [reflexivity |]. split; [| reflexivity].
  rewrite Hl, length_seq. unfold add_atr.
  rewrite length_combine, rolling_mean_length, true_range_length. lia.
Qed.

(** The column of signals is the first [len(df)] draws of the generator,
    and the generator is left in the state after these draws. *)
Lemma add_total_signal_draws (n : nat) (df : list Raw.Candle) (g : G) :
  fst (signals_for G rand_index (add_atr df n)
         (seq 0 (length (add_atr df n))) g)
  = fst (draws G rand_index (length df) g) /\
  snd (prepare G rand_index n df g)
  = snd (draws G rand_index (length df) g).
Proof.
  assert (Hlen : length (add_atr df n) = length df).
  { unfold add_atr.
    rewrite length_combine, rolling_mean_length, true_range_length. lia. }
  unfold prepare, add_total_signal.
  rewrite signals_for_draws, length_seq, Hlen.
  destruct (draws G rand_index (length df) g) as [col g']. auto.
Qed.

End SignalFacts.

(** C6, as the code has it.  With a window of [n >= 1] rows, the column
    [ATR] is undefined on the first [n] rows and defined on all later
    ones.  [add_total_signal] runs before [dropna]: it gives a signal to
    every row, the first [n] included.  [dropna] then removes the first
    [n] rows: the bars that the backtest loop reads are the rows from [n]
    on, with their closes, their (defined) ATR, and the signals that were
    drawn for them.  The column of signals is the list of the first
    [len(df)] draws of the generator, one per row, and the generator is
    left in the state after [len(df)] draws: the traded bars carry the
    draws number [n + 1], [n + 2], ... *)
Theorem warm_up_rows_dropped_after_signals
    (G : Type) (rand_index : nat -> G -> nat * G)
    (n : nat) (df : list Raw.Candle) (g : G) :
  (1 <= n)%nat ->
  let frame := fst (add_total_signal G rand_index (add_atr df n) g) in
  let bars := fst (prepare G rand_index n df g) in
  length frame = length df /\
  map (fun row => is_valid (snd (fst row))) frame
  = map (fun i => (n <=? i)%nat) (seq 0 (length df)) /\
  map Close bars = map Raw.Close (skipn n df) /\
  map (fun b => Some (ATR b)) bars
  = skipn n (map (fun row => snd (fst row)) frame) /\
  map TotalSignal bars = skipn n (map snd frame) /\
  map snd frame = fst (draws G rand_index (length df) g) /\
  snd (prepare G rand_index n df g)
  = snd (draws G rand_index (length df) g) /\
  map TotalSignal bars = skipn n (fst (draws G rand_index (length df) g)).
Proof.
  intros Hn frame bars.
  destruct (add_total_signal_frame G rand_index n df g) as (Hf & Hl & Hb).
  destruct (add_total_signal_draws G rand_index n df g) as (Hdr & Hst).
  cbv zeta in Hf, Hl, Hb. unfold frame, bars. rewrite Hf, Hb, Hst.
  rewrite <- Hdr.
  set (col := fst (signals_for G rand_index (add_atr df n)
                     (seq 0 (length (add_atr df n))) g)) in *.
  set (atrs := rolling_mean n (true_range df)).
  assert (Ha : length atrs = length df).
  { unfold atrs. now rewrite rolling_mean_length, true_range_length. }
  assert (Hm : mask atrs = map (fun i => (n <=? i)%nat) (seq 0 (length df)))
    by (apply add_atr_mask; exact Hn).
  assert (Hda : length (combine df atrs) = length df)
    by (rewrite length_combine; lia).
  assert (Hatr : map (fun row : Raw.Candle * option Q * Z => snd (fst row))
                   (combine (combine df atrs) col) = atrs).
  { rewrite <- (map_map fst snd).
    rewrite map_fst_combine by lia. apply map_snd_combine. lia. }
  destruct (dropna_mask n df 0 atrs col Ha Hl Hm) as (D1 & D2 & D3).
  rewrite Nat.sub_0_r in D1, D2, D3.
  split; [rewrite length_combine; lia |].
  split.
  { rewrite <- Hm. unfold mask. rewrite <- Hatr at 2.
    now rewrite map_map. }
  split; [exact D1 |]. split; [now rewrite Hatr |].
  rewrite map_snd_combine by lia.
  split; [exact D2 |]. split; [reflexivity |]. split; [reflexivity |].
  exact D2.
Qed.

Lemma warm_up_rows_dropped_after_signals_witness :
  (1 <= 10)%nat /\
  map Close (fst (prepare Z LCG.rand_index 10 warm_up_df 1%Z))
  = map Raw.Close (skipn 10 warm_up_df) /\
  map TotalSignal (fst (prepare Z LCG.rand_index 10 warm_up_df 1%Z))
  = skipn 10 (fst (draws Z LCG.rand_index (length warm_up_df) 1%Z)).
Proof.
  assert (H : (1 <= 10)%nat) by lia.
  split; [exact H |].
  destruct (warm_up_rows_dropped_after_signals
              Z LCG.rand_index 10 warm_up_df 1%Z H)
    as (_ & _ & Hc & _ & _ & _ & _ & Hd).
  split; [exact Hc | exact Hd].
Defined.

(** C6 as stated fails on [warm_up_df] (twelve candles, window 10, the
    generator in state 1).  The frame that [add_total_signal] returns has
    ten rows without an ATR, and each of them has a signal; row 0 has the
    signal 1.  The generator was advanced twelve times, once per row.  The
    two bars that are traded carry the draws number 11 and 12, which are 2
    and 2, where the first two draws are 1 and 1. *)
Lemma warm_up_rows_get_signals :
  let frame := fst (add_total_signal Z LCG.rand_index
                      (add_atr warm_up_df 10) 1%Z) in
  (exists c, nth_error frame 0 = Some (c, None, 1%Z)) /\
  length (filter (fun row => negb (is_valid (snd (fst row)))) frame)
  = 10%nat /\
  length frame = 12%nat /\
  snd (prepare Z LCG.rand_index 10 warm_up_df 1%Z)
  = Nat.iter 12 LCG.next 1%Z /\
  map TotalSignal (fst (prepare Z LCG.rand_index 10 warm_up_df 1%Z))
  = [2; 2]%Z /\
  fst (signals_for Z LCG.rand_index warm_up_df [0; 1]%nat 1%Z) = [1; 1]%Z.
Proof.
  cbv zeta. split; [eexists; vm_compute; reflexivity |].
  repeat split; vm_compute; reflexivity.
Qed.

(** * Further properties of the scripts *)

(** ** The iteration of the trailing-stop engine *)

(** The state an iteration ends in is the trailing-stop part applied to
    the state its entry part returned. *)
Lemma bar_step_split (risk_pct atr_mult : Q) (s s' : State) (b : Bar) :
  bar_step risk_pct atr_mult s b = Ok s' ->
  exists s1, entry_step risk_pct atr_mult s b = Ok s1 /\
             s' = trailing_step atr_mult s1 b.
Proof.
  unfold bar_step. intro H. apply bind_ok in H.
  destruct H as (s1 & He & Hs). injection Hs as <-. eauto.
Qed.

(** X1.  At the end of a bar the position never opposes the coin of that
    bar: after a coin 2 it is long or flat, after a coin 1 short or flat,
    whatever the parameters and the state before. *)
Theorem position_follows_signal
    (risk_pct atr_mult : Q) (s s' : State) (b : Bar) :
  bar_step risk_pct atr_mult s b = Ok s' ->
  (TotalSignal b = 2%Z -> 0 <= position s') /\
  (TotalSignal b = 1%Z -> position s' <= 0).
Proof.
  intro H. destruct (bar_step_split _ _ _ _ _ H) as (s1 & He & ->).
  pose proof (trailing_step_cases atr_mult s1 b) as (_ & Hc).
  cbv zeta in Hc.
  pose proof (pymin_le_l (Close b - atr_mult * ATR b)
                (Close b + atr_mult * ATR b)) as Hmin1.
  pose proof (pymin_le_r (Close b - atr_mult * ATR b)
                (Close b + atr_mult * ATR b)) as Hmin2.
  pose proof (pymax_ge_l (Close b + atr_mult * ATR b)
                (Close b - atr_mult * ATR b)) as Hmax1.
  pose proof (pymax_ge_r (Close b + atr_mult * ATR b)
                (Close b - atr_mult * ATR b)) as Hmax2.
  destruct (entry_test s b) eqn:Ht.
  - destruct (entry_step_enter _ _ s s1 b Ht He)
      as (Hd & _ & _ & _ & [(Hl & Hp & Htr) | (Hl & Hsh & Hp & Htr)]).
    + unfold long_entry_test in Hl. apply andb_true_iff in Hl.
      destruct Hl as (Hsig & _). apply Z.eqb_eq in Hsig.
      split; [intros _ | intro H1; congruence].
      destruct Hc as [(Hpos & _ & [(_ & Hz & _) | (_ & Hz & _)])
                     | [(Hn & Hts & [(_ & Hz & _) | (Hlt & _)])
                       | (Hz & Heq)]];
        try (rewrite Hz; lra).
      * rewrite Hts, Htr in Hlt. lra.
      * rewrite Heq. lra.
    + unfold short_entry_test in Hsh. apply andb_true_iff in Hsh.
      destruct Hsh as (Hsig & _). apply Z.eqb_eq in Hsig.
      split; [intro H2; congruence | intros _].
      destruct Hc as [(Hpos & Hts & [(_ & Hz & _) | (Hlt & _)])
                     | [(Hn & _ & [(_ & Hz & _) | (_ & Hz & _)])
                       | (Hz & Heq)]];
        try (rewrite Hz; lra).
      * rewrite Hts, Htr in Hlt. lra.
      * rewrite Heq. lra.
  - rewrite (entry_step_skip _ _ s b Ht) in He. injection He as <-.
    unfold entry_test, long_entry_test, short_entry_test in Ht.
    apply orb_false_iff in Ht. destruct Ht as (Hlf & Hsf).
    split; intro Hsig; rewrite Hsig in *; simpl in *.
    + apply Qle_bool_false in Hlf.
      destruct Hc as [(_ & _ & [(_ & Hz & _) | (_ & Hz & _)])
                     | [(Hn & _) | (Hz & _)]];
        try (rewrite Hz; lra); lra.
    + apply Qle_bool_false in Hsf.
      destruct Hc as [(Hpos & _)
                     | [(_ & _ & [(_ & Hz & _) | (_ & Hz & _)])
                       | (Hz & _)]];
        try (rewrite Hz; lra); lra.
Qed.

Lemma position_follows_signal_witness :
  exists s',
    bar_step default_risk default_mult (mkState 10000 5 100 94 [])
      (mkBar 100 2 1) = Ok s' /\ position s' <= 0.
Proof.
  eexists. split; [vm_compute; reflexivity |].
  apply (proj2 (position_follows_signal default_risk default_mult
                  (mkState 10000 5 100 94 []) _ (mkBar 100 2 1) eq_refl)).
  reflexivity.
Defined.

(** X2.  At the end of a bar an open long position has its stop below the
    close and not more than the stop distance of that bar below it; an
    open short position has its stop above the close and not more than
    the stop distance above it. *)
Theorem open_position_stop_band
    (risk_pct atr_mult : Q) (s s' : State) (b : Bar) :
  bar_step risk_pct atr_mult s b = Ok s' ->
  (0 < position s' ->
   Close b - atr_mult * ATR b <= trail_stop s' /\ trail_stop s' < Close b) /\
  (position s' < 0 ->
   Close b < trail_stop s' /\ trail_stop s' <= Close b + atr_mult * ATR b).
Proof.
  intro H. destruct (bar_step_split _ _ _ _ _ H) as (s1 & _ & ->).
  pose proof (trailing_step_cases atr_mult s1 b) as (_ & Hc).
  cbv zeta in Hc.
  pose proof (pymax_ge_r (trail_stop s1) (Close b - atr_mult * ATR b)).
  pose proof (pymin_le_r (trail_stop s1) (Close b + atr_mult * ATR b)).
  destruct Hc as [(Hpos & Hts & [(_ & Hz & _) | (Hlt & Hz & _)])
                 | [(Hn & Hts & [(_ & Hz & _) | (Hlt & Hz & _)])
                   | (Hz & Heq)]];
    split; intro Hp; try (rewrite Hz in Hp; lra);
    try (rewrite Heq in Hp; lra);
    rewrite Hts in *; split; lra.
Qed.

Lemma open_position_stop_band_witness :
  exists s',
    bar_step default_risk default_mult (init_state default_capital)
      (mkBar 100 2 2) = Ok s' /\
    0 < position s' /\ 94 <= trail_stop s' /\ trail_stop s' < 100.
Proof.
  eexists. split; [vm_compute; reflexivity |].
  split; [reflexivity |].
  destruct (proj1 (open_position_stop_band default_risk default_mult
                     (init_state default_capital) _ (mkBar 100 2 2)
                     eq_refl) eq_refl) as (H1 & H2).
  split; [| exact H2]. vm_compute in H1 |- *. exact H1.
Defined.

(** X3.  An iteration without entry that ends flat from an open position
    closed it on its stop: the close is at or beyond the stop, the profit
    or loss [position * (close - entry_price)] is appended to the trade
    log and added to the equity. *)
Theorem stop_exit_books_trade
    (risk_pct atr_mult : Q) (s s' : State) (b : Bar) :
  bar_step risk_pct atr_mult s b = Ok s' ->
  entry_test s b = false -> ~ position s == 0 -> position s' == 0 ->
  trades s' = trades s ++ [position s * (Close b - entry_price s)] /\
  equity s' = equity s + position s * (Close b - entry_price s) /\
  (0 < position s -> Close b <= trail_stop s') /\
  (position s < 0 -> trail_stop s' <= Close b).
Proof.
  intros H Ht Hnz Hz'.
  destruct (bar_step_split _ _ _ _ _ H) as (s1 & He & ->).
  rewrite (entry_step_skip _ _ s b Ht) in He. injection He as <-.
  pose proof (trailing_step_cases atr_mult s b) as (_ & Hc).
  cbv zeta in Hc.
  destruct Hc as [(Hpos & _ & [(Hle & _ & Hq & Hr) | (_ & Hz & _)])
                 | [(Hn & _ & [(Hle & _ & Hq & Hr) | (_ & Hz & _)])
                   | (Hz & _)]];
    try (rewrite Hz in Hz'; lra); try contradiction.
  - repeat split; auto. intro; lra.
  - repeat split; auto. intro; lra.
Qed.

Lemma stop_exit_books_trade_witness :
  exists s',
    bar_step default_risk default_mult (mkState 10000 5 100 99 [])
      (mkBar 95 2 2) = Ok s' /\
    trades s' = [] ++ [5 * (95 - 100)] /\
    equity s' = 10000 + 5 * (95 - 100).
Proof.
  eexists. split; [vm_compute; reflexivity |].
  destruct (stop_exit_books_trade default_risk default_mult
              (mkState 10000 5 100 99 []) _ (mkBar 95 2 2) eq_refl eq_refl)
    as (Ht & Hq & _).
  - vm_compute. discriminate.
  - reflexivity.
  - split; [exact Ht | exact Hq].
Defined.

(** X4.  In exact arithmetic, a bar on which the entry code ran never
    changes the value of the equity: either nothing is booked, or the
    position just entered is closed on the same bar and the trade booked
    for it is [position * (close - close)] for the size just entered,
    which is zero for every number (the code computes a [nan] there when
    the size overflowed to [inf]). *)
Theorem entry_bar_trade_is_zero
    (risk_pct atr_mult : Q) (s s' : State) (b : Bar) :
  bar_step risk_pct atr_mult s b = Ok s' ->
  entry_test s b = true ->
  equity s' == equity s /\
  (trades s' = trades s \/
   exists size pnl,
     (size = risk_pct * equity s / (atr_mult * ATR b) \/
      size = - (risk_pct * equity s / (atr_mult * ATR b))) /\
     pnl = size * (Close b - Close b) /\
     trades s' = trades s ++ [pnl] /\ pnl == 0 /\ position s' = 0).
Proof.
  intros H Ht.
  destruct (bar_step_split _ _ _ _ _ H) as (s1 & He & ->).
  destruct (entry_step_enter _ _ s s1 b Ht He)
    as (_ & Heq & Htr & Hpr & Hside).
  assert (Hsize : position s1 = risk_pct * equity s / (atr_mult * ATR b) \/
                  position s1
                  = - (risk_pct * equity s / (atr_mult * ATR b))).
  { destruct Hside as [(_ & Hp & _) | (_ & _ & Hp & _)]; auto. }
  pose proof (trailing_step_cases atr_mult s1 b) as (_ & Hc).
  cbv zeta in Hc. rewrite Hpr, Heq, Htr in Hc.
  destruct Hc as [(_ & _ & [(_ & Hz & Hq & Hr) | (_ & _ & Hq & Hr)])
                 | [(_ & _ & [(_ & Hz & Hq & Hr) | (_ & _ & Hq & Hr)])
                   | (_ & E)]].
  - rewrite Hq, Hr. split; [lra |]. right.
    exists (position s1), (position s1 * (Close b - Close b)).
    repeat split; auto. lra.
  - rewrite Hq, Hr. split; [lra | auto].
  - rewrite Hq, Hr. split; [lra |]. right.
    exists (position s1), (position s1 * (Close b - Close b)).
    repeat split; auto. lra.
  - rewrite Hq, Hr. split; [lra | auto].
  - rewrite E, Heq, Htr. split; [lra | auto].
Qed.

Lemma entry_bar_trade_is_zero_witness :
  exists s',
    bar_step default_risk default_mult (mkState (-23333) 0 100 100 [-33333])
      (mkBar 200 (1009 # 100) 2) = Ok s' /\
    equity s' == -23333 /\ length (trades s') = 2%nat.
Proof.
  eexists. split; [vm_compute; reflexivity |].
  split; [| reflexivity].
  apply (entry_bar_trade_is_zero default_risk default_mult
           (mkState (-23333) 0 100 100 [-33333]) _
           (mkBar 200 (1009 # 100) 2) eq_refl eq_refl).
Defined.

(** X5.  Fixed-fractional sizing, in exact arithmetic (the doubles of the
    code round the division and the subtraction): when the entry code ran
    on a bar and the position is open at the end of it, the size times
    the distance from the entry price to the stop is the risk amount of
    that bar, [risk_pct * equity], for a long and for a short entry
    alike. *)
Theorem entry_risks_fixed_fraction
    (risk_pct atr_mult : Q) (s s' : State) (b : Bar) :
  bar_step risk_pct atr_mult s b = Ok s' ->
  entry_test s b = true -> ~ position s' == 0 ->
  entry_price s' = Close b /\
  position s' * (entry_price s' - trail_stop s') == risk_pct * equity s.
Proof.
  intros H Ht Hopen.
  destruct (bar_step_split _ _ _ _ _ H) as (s1 & He & ->).
  pose proof (trailing_step_cases atr_mult s1 b) as (Hep & Hc).
  cbv zeta in Hep, Hc.
  pose proof (pymin_le_l (Close b - atr_mult * ATR b)
                (Close b + atr_mult * ATR b)) as Hmin1.
  pose proof (pymin_le_r (Close b - atr_mult * ATR b)
                (Close b + atr_mult * ATR b)) as Hmin2.
  pose proof (pymax_ge_l (Close b + atr_mult * ATR b)
                (Close b - atr_mult * ATR b)) as Hmax1.
  pose proof (pymax_ge_r (Close b + atr_mult * ATR b)
                (Close b - atr_mult * ATR b)) as Hmax2.
  destruct (entry_step_enter _ _ s s1 b Ht He)
    as (Hd & _ & _ & Hpr & [(_ & Hp & Htr) | (_ & _ & Hp & Htr)]);
    (split; [congruence |]); rewrite Hep, Hpr.
  - destruct (pymax_spec (Close b - atr_mult * ATR b)
                (Close b - atr_mult * ATR b)) as [(? & Em) | (_ & Em)];
      [lra |].
    destruct Hc as [(_ & Hts & [(_ & Hz & _) | (_ & Hz & _)])
                   | [(_ & Hts & [(_ & Hz & _) | (Hlt & Hz & _)])
                     | (Hz & E0)]];
      try (exfalso; apply Hopen; rewrite Hz; lra).
    + rewrite Hz, Hts, Htr, Em, Hp. field.
      split; intro E; apply Hd; rewrite E; ring.
    + rewrite Hts, Htr in Hlt. lra.
    + exfalso. apply Hopen. rewrite E0. exact Hz.
  - destruct (pymin_spec (Close b + atr_mult * ATR b)
                (Close b + atr_mult * ATR b)) as [(? & Em) | (_ & Em)];
      [lra |].
    destruct Hc as [(_ & Hts & [(_ & Hz & _) | (Hlt & Hz & _)])
                   | [(_ & Hts & [(_ & Hz & _) | (_ & Hz & _)])
                     | (Hz & E0)]];
      try (exfalso; apply Hopen; rewrite Hz; lra).
    + rewrite Hts, Htr in Hlt. lra.
    + rewrite Hz, Hts, Htr, Em, Hp. field.
      split; intro E; apply Hd; rewrite E; ring.
    + exfalso. apply Hopen. rewrite E0. exact Hz.
Qed.

Lemma entry_risks_fixed_fraction_witness :
  exists s',
    bar_step default_risk default_mult (init_state default_capital)
      (mkBar 100 2 1) = Ok s' /\
    position s' * (entry_price s' - trail_stop s') == 100.
Proof.
  eexists. split; [vm_compute; reflexivity |].
  destruct (entry_risks_fixed_fraction default_risk default_mult
              (init_state default_capital) _ (mkBar 100 2 1)
              eq_refl eq_refl) as (_ & Hr).
  - vm_compute. discriminate.
  - rewrite Hr. reflexivity.
Defined.

(** ** Whole runs of the trailing-stop engine *)

Lemma bar_step_log_grows (risk_pct atr_mult : Q) (s s' : State) (b : Bar) :
  bar_step risk_pct atr_mult s b = Ok s' ->
  exists l, trades s' = trades s ++ l /\ (length l <= 1)%nat.
Proof.
  intro H. destruct (bar_step_split _ _ _ _ _ H) as (s1 & He & ->).
  destruct (entry_step_keeps _ _ _ _ _ He) as (_ & <-).
  pose proof (trailing_step_cases atr_mult s1 b) as (_ & Hc).
  cbv zeta in Hc.
  destruct Hc as [(_ & _ & [(_ & _ & _ & ->) | (_ & _ & _ & ->)])
                 | [(_ & _ & [(_ & _ & _ & ->) | (_ & _ & _ & ->)])
                   | (_ & ->)]];
    first [ exists (@nil Q); rewrite app_nil_r; split;
            [reflexivity | simpl; lia]
          | eexists; split; [reflexivity | simpl; lia] ].
Qed.

(** X6.  The trade log only grows, by at most one trade per bar: the log
    at the end of a run is the log at its start followed by at most
    [len(df)] trades, and the number of trades that the trailing-stop
    script returns is at most the number of bars. *)
Theorem trade_log_append_only
    (risk_pct atr_mult : Q) (df : list Bar) :
  (forall s s',
      run_bars risk_pct atr_mult s df = Ok s' ->
      exists l, trades s' = trades s ++ l /\ (length l <= length df)%nat) /\
  (forall initial_capital final_equity n avg,
      TrailingStop.run_tom_basso_coin_toss df initial_capital risk_pct
        atr_mult = Ok (final_equity, n, avg) ->
      (n <= length df)%nat).
Proof.
  assert (Hrun : forall s s',
             run_bars risk_pct atr_mult s df = Ok s' ->
             exists l, trades s' = trades s ++ l /\
                       (length l <= length df)%nat).
  { induction df as [| b df IH]; intros s s' H; simpl in H.
    - injection H as <-. exists []. rewrite app_nil_r. auto.
    - apply bind_ok in H. destruct H as (s1 & H1 & H).
      destruct (bar_step_log_grows _ _ _ _ _ H1) as (l1 & E1 & L1).
      destruct (IH _ _ H) as (l2 & E2 & L2).
      exists (l1 ++ l2). rewrite E2, E1, app_assoc, length_app.
      split; [reflexivity | simpl; lia]. }
  split; [exact Hrun |].
  unfold TrailingStop.run_tom_basso_coin_toss.
  intros initial_capital final_equity n avg H.
  apply bind_ok in H. destruct H as (s & Hs & E). injection E as _ <- _.
  destruct (Hrun _ _ Hs) as (l & -> & Hl). simpl. exact Hl.
Qed.

Lemma trade_log_append_only_witness :
  exists final_equity n avg,
    TrailingStop.run_tom_basso_coin_toss gap_df default_capital default_risk
      default_mult = Ok (final_equity, n, avg) /\
    (n <= 3)%nat.
Proof.
  eexists. eexists. eexists. split; [vm_compute; reflexivity |].
  exact (proj2 (trade_log_append_only default_risk default_mult gap_df)
           default_capital _ _ _ eq_refl).
Defined.

Lemma run_curve_total (risk_pct atr_mult : Q) (df : list Bar) :
  forall s s' curve,
    run_bars risk_pct atr_mult s df = Ok s' ->
    exists curve',
      Plot.run_curve risk_pct atr_mult s curve df = Ok (s', curve').
Proof.
  induction df as [| b df IH]; intros s s' curve H; simpl in *.
  - injection H as <-. eauto.
  - apply bind_ok in H. destruct H as (s1 & H1 & H).
    rewrite H1. simpl. now apply IH.
Qed.

Lemma last_of_curve (initial_capital : Q) (l : list State) :
  last (initial_capital :: map equity l) initial_capital
  = equity (last l (init_state initial_capital)).
Proof.
  change (initial_capital :: map equity l)
    with (map equity (init_state initial_capital :: l)).
  change initial_capital with (equity (init_state initial_capital)) at 2.
  now rewrite last_map_default, last_cons_shift.
Qed.

(** X8.  The two scripts with the engine agree: the plot variant returns
    exactly when the trailing-stop script does, and then the last entry of
    its curve, the length of its trade log and the mean of its trade log
    (0 for an empty log) are the triple that the trailing-stop script
    returns. *)
Theorem plot_agrees_with_trailing_stop
    (df : list Bar) (initial_capital risk_pct atr_mult : Q) :
  (forall equity_curve trade_log,
      Plot.run_tom_basso_coin_toss df initial_capital risk_pct atr_mult
        = Ok (equity_curve, trade_log) ->
      TrailingStop.run_tom_basso_coin_toss df initial_capital risk_pct
        atr_mult
      = Ok (last equity_curve initial_capital, length trade_log,
            match trade_log with [] => 0 | _ => mean trade_log end)) /\
  (forall final_equity n avg,
      TrailingStop.run_tom_basso_coin_toss df initial_capital risk_pct
        atr_mult = Ok (final_equity, n, avg) ->
      exists equity_curve trade_log,
        Plot.run_tom_basso_coin_toss df initial_capital risk_pct atr_mult
          = Ok (equity_curve, trade_log)).
Proof.
  unfold Plot.run_tom_basso_coin_toss, TrailingStop.run_tom_basso_coin_toss.
  split.
  - intros equity_curve trade_log H.
    apply bind_ok in H. destruct H as ((s & curve) & Hs & E).
    injection E as <- <-. cbn [fst snd].
    destruct (run_curve_trace _ _ _ _ _ _ _ Hs) as (Hr & l & Hl & ->).
    rewrite Hr. cbn [bind]. do 3 f_equal.
    pose proof (trace_last _ _ _ _ _ Hl) as Hlast.
    rewrite Hr in Hlast. injection Hlast as ->.
    change ([initial_capital] ++ map equity l)
      with (initial_capital :: map equity l).
    now rewrite last_of_curve.
  - intros final_equity n avg H.
    apply bind_ok in H. destruct H as (s & Hs & _).
    destruct (run_curve_total _ _ _ _ _ [initial_capital] Hs)
      as (curve & ->).
    simpl. eauto.
Qed.

Lemma plot_agrees_with_trailing_stop_witness :
  exists equity_curve trade_log,
    Plot.run_tom_basso_coin_toss round_trip_df default_capital default_risk
      default_mult = Ok (equity_curve, trade_log) /\
    TrailingStop.run_tom_basso_coin_toss round_trip_df default_capital
      default_risk default_mult
    = Ok (last equity_curve default_capital, length trade_log,
          match trade_log with [] => 0 | _ => mean trade_log end).
Proof.
  eexists. eexists. split; [vm_compute; reflexivity |].
  apply (proj1 (plot_agrees_with_trailing_stop round_trip_df default_capital
                  default_risk default_mult)).
  vm_compute. reflexivity.
Defined.

Lemma nth_error_removelast {A : Type} (l : list A) (i : nat) :
  (S i < length l)%nat -> nth_error (removelast l) i = nth_error l i.
Proof.
  revert i. induction l as [| a l IH]; intros i H; simpl in H; [lia |].
  destruct l as [| b l]; [simpl in H; lia |].
  change (removelast (a :: b :: l)) with (a :: removelast (b :: l)).
  destruct i as [| i]; [reflexivity |].
  simpl nth_error. apply IH. simpl in *. lia.
Qed.

Lemma removelast_length {A : Type} (l : list A) :
  length (removelast l) = pred (length l).
Proof.
  induction l as [| a l IH]; [reflexivity |].
  destruct l as [| b l]; [reflexivity |].
  change (removelast (a :: b :: l)) with (a :: removelast (b :: l)).
  simpl length in *. rewrite IH. reflexivity.
Qed.

(** X9.  The curve that the plot script draws, [equity_curve[:-1]], has
    one point per bar, as [df.index] has, and its point [i] is the equity
    before bar [i] is processed (the initial capital for the first bar);
    the equity after the last bar is not drawn. *)
Theorem plotted_curve_is_equity_before_bar
    (df : list Bar) (initial_capital risk_pct atr_mult : Q)
    (equity_curve trade_log : list Q) :
  Plot.run_tom_basso_coin_toss df initial_capital risk_pct atr_mult
    = Ok (equity_curve, trade_log) ->
  length (PlotMain.plotted_curve equity_curve) = length df /\
  forall i, (i < length df)%nat ->
    exists s,
      run_bars risk_pct atr_mult (init_state initial_capital) (firstn i df)
        = Ok s /\
      nth_error (PlotMain.plotted_curve equity_curve) i = Some (equity s).
Proof.
  unfold Plot.run_tom_basso_coin_toss, PlotMain.plotted_curve. intro H.
  apply bind_ok in H. destruct H as ((s & curve) & Hs & E).
  injection E as <- <-. simpl snd.
  destruct (run_curve_trace _ _ _ _ _ _ _ Hs) as (_ & l & Hl & ->).
  pose proof (trace_length _ _ _ _ _ Hl) as Hlen.
  change ([initial_capital] ++ map equity l)
    with (map equity (init_state initial_capital :: l)).
  split.
  - rewrite removelast_length, length_map. simpl. exact Hlen.
  - intros i Hi.
    rewrite nth_error_removelast by (rewrite length_map; simpl; lia).
    rewrite nth_error_map.
    destruct i as [| i].
    + exists (init_state initial_capital). split; reflexivity.
    + simpl nth_error.
      destruct (nth_error l i) as [si |] eqn:Hsi.
      * exists si. split; [| reflexivity].
        now apply (trace_prefix _ _ _ _ l i si Hl).
      * apply nth_error_None in Hsi. lia.
Qed.

Lemma plotted_curve_is_equity_before_bar_witness :
  exists equity_curve trade_log,
    Plot.run_tom_basso_coin_toss round_trip_df default_capital default_risk
      default_mult = Ok (equity_curve, trade_log) /\
    length (PlotMain.plotted_curve equity_curve) = 3%nat.
Proof.
  eexists. eexists. split; [vm_compute; reflexivity |].
  refine (proj1 (plotted_curve_is_equity_before_bar round_trip_df
                   default_capital default_risk default_mult _ _ _)).
  vm_compute. reflexivity.
Defined.

(** ** The fixed-notional baseline *)

Lemma v2_div_100 (p : Q) :
  (p == 0 /\ div 100 p = DivByZero) \/ (~ p == 0 /\ div 100 p = Ok (100 / p)).
Proof. apply div_cases. Qed.

(** X10.  Equity conservation in the baseline: the equity that
    [run_random_backtest] returns is the initial capital plus the sum of
    its trade log, that is plus the number of trades times their mean. *)
Theorem baseline_equity_conservation (df : list Bar) (initial_capital : Q) :
  (forall s,
      V2.run_bars (V2.init_state initial_capital) df = Ok s ->
      V2.equity s == initial_capital + sum (V2.trades s)) /\
  (forall final_equity n avg,
      V2.run_random_backtest df initial_capital = Ok (final_equity, n, avg) ->
      final_equity == initial_capital + inject_Z (Z.of_nat n) * avg).
Proof.
  assert (Hgen : forall s s',
             V2.run_bars s df = Ok s' ->
             V2.equity s' - sum (V2.trades s')
             == V2.equity s - sum (V2.trades s)).
  { induction df as [| b df IH]; intros s s' H; simpl in H.
    - injection H as <-. reflexivity.
    - apply bind_ok in H. destruct H as (s1 & H1 & H).
      rewrite (IH _ _ H).
      destruct (v2_bar_step_cases s b)
        as [(_ & _ & E) | [(_ & _ & E) | (_ & _ & E)]]; rewrite E in H1.
      + destruct (v2_div_100 (Close b)) as [(_ & Ed) | (_ & Ed)];
          rewrite Ed in H1; simpl in H1; [discriminate |].
        injection H1 as <-. reflexivity.
      + injection H1 as <-. simpl. rewrite sum_snoc. lra.
      + injection H1 as <-. reflexivity. }
  assert (Hrun : forall s,
             V2.run_bars (V2.init_state initial_capital) df = Ok s ->
             V2.equity s == initial_capital + sum (V2.trades s)).
  { intros s H. apply Hgen in H. simpl in H.
    unfold sum at 2 in H. simpl in H. lra. }
  split; [exact Hrun |].
  unfold V2.run_random_backtest. intros final_equity n avg H.
  apply bind_ok in H. destruct H as (s & Hs & E).
  injection E as <- <- <-. rewrite (Hrun s Hs).
  destruct (V2.trades s) as [| x l] eqn:Et.
  - simpl. unfold sum. simpl. lra.
  - rewrite mean_times_length by discriminate. reflexivity.
Qed.

Lemma baseline_equity_conservation_witness :
  exists final_equity n avg,
    V2.run_random_backtest baseline_df default_capital
      = Ok (final_equity, n, avg) /\
    final_equity == default_capital + inject_Z (Z.of_nat n) * avg.
Proof.
  eexists. eexists. eexists. split; [vm_compute; reflexivity |].
  apply (proj2 (baseline_equity_conservation baseline_df default_capital)).
  vm_compute. reflexivity.
Defined.



Lemma v2_open_le_1 (s : V2.State) : (v2_open s <= 1)%nat.
Proof. unfold v2_open. destruct (Qeq_bool _ _); lia. Qed.

(** X12.  Every trade of the baseline needs a coin 2 to open and a coin 1
    to close: the number of trades that [run_random_backtest] returns is
    at most [buys] and at most [sells] of the frame. *)
Theorem baseline_trades_bounded_by_signals
    (df : list Bar) (initial_capital final_equity avg : Q) (n : nat) :
  V2.run_random_backtest df initial_capital = Ok (final_equity, n, avg) ->
  (n <= buys df)%nat /\ (n <= sells df)%nat.
Proof.
  assert (Hgen : forall s s',
             V2.run_bars s df = Ok s' ->
             (length (V2.trades s') + v2_open s'
              <= length (V2.trades s) + v2_open s + buys df)%nat /\
             (length (V2.trades s')
              <= length (V2.trades s) + sells df)%nat).
  { unfold buys, sells.
    induction df as [| b df IH]; intros s s' H; simpl in H.
    - injection H as <-. simpl. lia.
    - apply bind_ok in H. destruct H as (s1 & H1 & H).
      destruct (IH _ _ H) as (IHb & IHs). clear IH.
      pose proof (v2_open_le_1 s1) as Ho1.
      cbn [filter].
      destruct (v2_bar_step_cases s b)
        as [(H2 & _ & E) | [(Hs1 & Hp & E) | (_ & _ & E)]];
        rewrite E in H1.
      + destruct (v2_div_100 (Close b)) as [(_ & Ed) | (_ & Ed)];
          rewrite Ed in H1; simpl in H1; [discriminate |].
        injection H1 as E1. rewrite H2. cbn [Z.eqb Pos.eqb length].
        assert (Et : V2.trades s1 = V2.trades s) by (now rewrite <- E1).
        rewrite Et in *. lia.
      + injection H1 as E1. rewrite Hs1. cbn [Z.eqb Pos.eqb length].
        assert (Et : length (V2.trades s1) = S (length (V2.trades s))).
        { rewrite <- E1. simpl. rewrite length_app. simpl. lia. }
        assert (Eo1 : v2_open s1 = 0%nat) by (now rewrite <- E1).
        assert (Eo : v2_open s = 1%nat).
        { unfold v2_open. destruct (Qeq_bool (V2.position s) 0) eqn:Ez;
            [| reflexivity].
          apply Qeq_bool_iff in Ez. lra. }
        lia.
      + injection H1 as <-.
        destruct (TotalSignal b =? 2)%Z, (TotalSignal b =? 1)%Z;
          cbn [length]; lia. }
  unfold V2.run_random_backtest. intro H.
  apply bind_ok in H. destruct H as (s & Hs & E). injection E as _ <- _.
  destruct (Hgen _ _ Hs) as (Hb & Hsl). simpl in Hb, Hsl.
  change (v2_open (V2.init_state initial_capital)) with 0%nat in Hb.
  lia.
Qed.

Lemma baseline_trades_bounded_by_signals_witness :
  exists final_equity n avg,
    V2.run_random_backtest baseline_df default_capital
      = Ok (final_equity, n, avg) /\
    (n <= buys baseline_df)%nat /\ (n <= sells baseline_df)%nat.
Proof.
  eexists. eexists. eexists. split; [vm_compute; reflexivity |].
  apply (baseline_trades_bounded_by_signals baseline_df default_capital
           _ _ _ eq_refl).
Defined.

(** ** The ATR of the bars that are traded *)

Lemma sum_cons (x : Q) (l : list Q) : sum (x :: l) == x + sum l.
Proof. unfold sum at 1. simpl. rewrite sum_from. lra. Qed.

Lemma sum_nonneg (l : list Q) : Forall (Qle 0) l -> 0 <= sum l.
Proof.
  induction 1 as [| x l Hx _ IH]; [unfold sum; simpl; lra |].
  rewrite sum_cons. lra.
Qed.

Lemma sum_pos (l : list Q) : l <> [] -> Forall (Qlt 0) l -> 0 < sum l.
Proof.
  intros Hne H. destruct H as [| x l Hx Hl]; [congruence |].
  rewrite sum_cons.
  assert (0 <= sum l).
  { apply sum_nonneg. eapply Forall_impl; [| exact Hl].
    intros a Ha. now apply Qlt_le_weak. }
  lra.
Qed.

Lemma length_pos_Q {A : Type} (l : list A) :
  l <> [] -> 0 < inject_Z (Z.of_nat (length l)).
Proof.
  intro H. destruct l as [| a l]; [congruence |].
  unfold Qlt. simpl. lia.
Qed.

Lemma mean_nonneg (l : list Q) : l <> [] -> Forall (Qle 0) l -> 0 <= mean l.
Proof.
  intros Hne H. unfold mean.
  apply Qle_shift_div_l; [now apply length_pos_Q |].
  rewrite Qmult_0_l. now apply sum_nonneg.
Qed.

Lemma mean_pos (l : list Q) : l <> [] -> Forall (Qlt 0) l -> 0 < mean l.
Proof.
  intros Hne H. unfold mean.
  apply Qlt_shift_div_l; [now apply length_pos_Q |].
  rewrite Qmult_0_l. now apply sum_pos.
Qed.

Lemma Forall_firstn {A : Type} (P : A -> Prop) (n : nat) (l : list A) :
  Forall P l -> Forall P (firstn n l).
Proof.
  intro H. revert n. induction H as [| x l Hx _ IH]; intros [| n]; simpl;
    constructor; auto.
Qed.

Lemma Forall_skipn {A : Type} (P : A -> Prop) (n : nat) (l : list A) :
  Forall P l -> Forall P (skipn n l).
Proof.
  intro H. revert n. induction H as [| x l Hx Hl IH]; intros [| n]; simpl;
    auto.
Qed.

Section CellBounds.

Variable P : Q -> Prop.
Hypothesis P_max_l : forall x y, P x -> P (pymax x y).
Hypothesis P_max_r : forall x y, P y -> P (pymax x y).
Hypothesis P_mean : forall l, l <> [] -> Forall P l -> P (mean l).

Lemma cell_np_maximum_l (l1 l2 : list (option Q)) :
  Forall (cell P) l1 -> Forall (cell P) (np_maximum l1 l2).
Proof.
  unfold np_maximum, zip_with. intro H. revert l2.
  induction H as [| a l1 Ha _ IH]; intros [| b l2]; simpl;
    try constructor; auto.
  destruct a, b; simpl; auto.
Qed.

Lemma cell_np_maximum_r (l1 l2 : list (option Q)) :
  Forall (cell P) l2 -> Forall (cell P) (np_maximum l1 l2).
Proof.
  unfold np_maximum, zip_with. intro H. revert l1.
  induction H as [| b l2 Hb _ IH]; intros [| a l1]; simpl;
    try constructor; auto.
  destruct a, b; simpl; auto.
Qed.

Lemma cell_valid_values (w : list (option Q)) :
  Forall (cell P) w -> Forall P (valid_values w).
Proof.
  unfold valid_values. induction 1 as [| [v |] w Hv _ IH]; simpl; auto.
Qed.

Lemma cell_rolling_mean (n : nat) (col : list (option Q)) :
  Forall (cell P) col -> Forall (cell P) (rolling_mean n col).
Proof.
  intro H. unfold rolling_mean. apply Forall_map, Forall_forall.
  intros i _. unfold window_mean.
  pose proof (cell_valid_values _
                (Forall_skipn _ (S i - n) _ (Forall_firstn _ (S i) _ H)))
    as Hv.
  destruct (valid_values (skipn (S i - n) (firstn (S i) col)))
    as [| v vs] eqn:E; [exact I |].
  destruct (length (v :: vs) <? n)%nat; [exact I |].
  simpl. apply P_mean; [discriminate | exact Hv].
Qed.

Lemma cell_dropna (rows : list (Raw.Candle * option Q * Z)) :
  Forall (fun row => cell P (snd (fst row))) rows ->
  Forall (fun b => P (ATR b)) (dropna rows).
Proof.
  unfold dropna. induction 1 as [| [[c [v |]] x] rows Hr _ IH]; simpl; auto.
Qed.

End CellBounds.

Lemma Forall_combine_snd {A B : Type} (P : B -> Prop)
    (l1 : list A) (l2 : list B) :
  Forall P l2 -> Forall (fun p => P (snd p)) (combine l1 l2).
Proof.
  intro H. revert l1. induction H as [| b l2 Hb _ IH]; intros [| a l1];
    simpl; auto.
Qed.

Lemma Forall_combine_fst {A B : Type} (P : A -> Prop)
    (l1 : list A) (l2 : list B) :
  Forall P l1 -> Forall (fun p => P (fst p)) (combine l1 l2).
Proof.
  intro H. revert l2. induction H as [| a l1 Ha _ IH]; intros [| b l2];
    simpl; auto.
Qed.

(** The ATR of the traded bars inherits every bound that the true ranges
    satisfy and that maxima and means keep. *)
Lemma prepared_atr_bound (P : Q -> Prop)
    (G : Type) (rand_index : nat -> G -> nat * G)
    (n : nat) (df : list Raw.Candle) (g : G) :
  (forall l, l <> [] -> Forall P l -> P (mean l)) ->
  Forall (cell P) (true_range df) ->
  Forall (fun b => P (ATR b)) (fst (prepare G rand_index n df g)).
Proof.
  intros Hmean Htr.
  destruct (add_total_signal_frame G rand_index n df g) as (_ & _ & ->).
  apply cell_dropna.
  apply (Forall_combine_fst (fun r : Raw.Candle * option Q =>
                               cell P (snd r))).
  apply Forall_combine_snd.
  now apply cell_rolling_mean.
Qed.

Lemma np_abs_nonneg (l : list (option Q)) : Forall (cell (Qle 0)) (np_abs l).
Proof.
  unfold np_abs. apply Forall_map, Forall_forall.
  intros [x |] _; simpl; [apply Qabs_nonneg | exact I].
Qed.

Lemma high_low_pos (df : list Raw.Candle) :
  Forall (fun c => Raw.Low c < Raw.High c) df ->
  Forall (cell (Qlt 0))
    (col_sub (map (fun c => Some (Raw.High c)) df)
       (map (fun c => Some (Raw.Low c)) df)).
Proof.
  unfold col_sub, zip_with.
  induction 1 as [| c df Hc _ IH]; simpl; constructor; auto.
  simpl. lra.
Qed.

(** X13.  The ATR of every bar that is traded is nonnegative, whatever the
    candles are (even with a high below the low), for every window. *)
Theorem traded_atr_nonneg
    (G : Type) (rand_index : nat -> G -> nat * G)
    (n : nat) (df : list Raw.Candle) (g : G) :
  Forall (fun b => 0 <= ATR b) (fst (prepare G rand_index n df g)).
Proof.
  apply (prepared_atr_bound (Qle 0)); [apply mean_nonneg |].
  unfold true_range.
  apply cell_np_maximum_r; [intros x y Hy; pose proof (pymax_ge_r x y); lra |].
  apply cell_np_maximum_l; [intros x y Hx; pose proof (pymax_ge_l x y); lra |].
  apply np_abs_nonneg.
Qed.

Lemma read_csv_keeps_ranging (rows : list Raw.Candle) :
  Forall (fun c => Raw.Low c <= Raw.High c) rows ->
  Forall (fun c => Raw.Low c < Raw.High c) (read_csv_to_dataframe rows).
Proof.
  unfold read_csv_to_dataframe. intro H.
  apply Forall_forall. intros c Hin. apply filter_In in Hin.
  destruct Hin as (Hin & Hne). rewrite Forall_forall in H.
  specialize (H c Hin). apply negb_true_iff, Qeq_bool_neq in Hne.
  destruct (Qlt_le_dec (Raw.Low c) (Raw.High c)) as [Hlt | Hge];
    [exact Hlt |].
  exfalso. apply Hne. lra.
Qed.

(** X14.  On candles whose high is never below the low, the row filter of
    [read_csv_to_dataframe] makes the whole trailing-stop script safe:
    every traded bar has a positive ATR, so the entry code never divides
    by zero and the run returns, whatever the signals drawn. *)
Theorem main_never_divides_by_zero
    (G : Type) (rand_index : nat -> G -> nat * G)
    (rows : list Raw.Candle) (g : G) :
  Forall (fun c => Raw.Low c <= Raw.High c) rows ->
  Forall (fun b => 0 < ATR b)
    (fst (prepare G rand_index 10 (read_csv_to_dataframe rows) g)) /\
  exists r, main G rand_index (read_csv_to_dataframe rows) g = Ok r.
Proof.
  intro Hwf.
  assert (Hatr : Forall (fun b => 0 < ATR b)
                   (fst (prepare G rand_index 10
                           (read_csv_to_dataframe rows) g))).
  { apply (prepared_atr_bound (Qlt 0)); [apply mean_pos |].
    unfold true_range.
    apply cell_np_maximum_l;
      [intros x y Hx; pose proof (pymax_ge_l x y); lra |].
    apply high_low_pos. now apply read_csv_keeps_ranging. }
  split; [exact Hatr |].
  unfold main, TrailingStop.run_tom_basso_coin_toss.
  destruct (run_bars_total (1 # 100) 3
              (fst (prepare G rand_index 10 (read_csv_to_dataframe rows) g)))
    with (s := init_state 10000) as (s & ->).
  - eapply Forall_impl; [| exact Hatr]. intros b Hb. simpl in Hb. lra.
  - simpl. eauto.
Qed.

Lemma main_never_divides_by_zero_witness :
  Forall (fun c => Raw.Low c <= Raw.High c) coin_df /\
  exists r, main Z LCG.rand_index (read_csv_to_dataframe coin_df) 1%Z = Ok r.
Proof.
  assert (H : Forall (fun c => Raw.Low c <= Raw.High c) coin_df).
  { unfold coin_df. apply Forall_map, Forall_forall.
    intros c _. simpl. lra. }
  split; [exact H |].
  exact (proj2 (main_never_divides_by_zero Z LCG.rand_index coin_df 1%Z H)).
Defined.

(** ** The signals and the counts of the main parts *)

Section CoinFacts.

Variable G : Type.
Variable rand_index : nat -> G -> nat * G.
Hypothesis rand_index_below :
  forall (k : nat) (g : G), (0 < k)%nat -> (fst (rand_index k g) < k)%nat.

Lemma total_signal_is_coin {F I : Type} (df : F) (candle : I) (g : G) :
  let x := fst (total_signal G rand_index df candle g) in
  x = 1%Z \/ x = 2%Z.
Proof.
  unfold total_signal, choice. cbn [length].
  pose proof (rand_index_below 2 g ltac:(lia)) as Hk.
  destruct (rand_index 2 g) as [k g']. simpl in *.
  destruct k as [| [| k]]; [left | right | lia]; reflexivity.
Qed.

Lemma signals_for_are_coins {F I : Type} (df : F) (index : list I) :
  forall g,
    Forall (fun x => x = 1%Z \/ x = 2%Z)
      (fst (signals_for G rand_index df index g)).
Proof.
  induction index as [| idx rest IH]; intro g; simpl; [constructor |].
  pose proof (total_signal_is_coin df idx g) as Hx. cbv zeta in Hx.
  destruct (total_signal G rand_index df idx g) as [x g1].
  specialize (IH g1).
  destruct (signals_for G rand_index df rest g1) as [xs g2].
  simpl in *. constructor; assumption.
Qed.

End CoinFacts.

Lemma dropna_signals (P : Z -> Prop)
    (rows : list (Raw.Candle * option Q * Z)) :
  Forall (fun row => P (snd row)) rows ->
  Forall (fun b => P (TotalSignal b)) (dropna rows).
Proof.
  unfold dropna. induction 1 as [| [[c [v |]] x] rows Hr _ IH]; simpl; auto.
Qed.

Lemma coins_counted (bars : list Bar) :
  Forall (fun b => TotalSignal b = 1%Z \/ TotalSignal b = 2%Z) bars ->
  (buys bars + sells bars = length bars)%nat.
Proof.
  unfold buys, sells.
  induction 1 as [| b bars [Hb | Hb] _ IH]; simpl; [reflexivity | |];
    rewrite Hb; simpl; lia.
Qed.

(** X15.  When the generator draws an index below the length of the list
    it chooses from, every traded bar carries the signal 1 or 2, and the
    counts [buys] and [sells] of the main part add up to the number of
    traded bars (the frequency that the scripts print is 100%). *)
Theorem every_signal_is_a_coin
    (G : Type) (rand_index : nat -> G -> nat * G)
    (n : nat) (df : list Raw.Candle) (g : G) :
  (forall (k : nat) (g : G), (0 < k)%nat -> (fst (rand_index k g) < k)%nat) ->
  let bars := fst (prepare G rand_index n df g) in
  Forall (fun b => TotalSignal b = 1%Z \/ TotalSignal b = 2%Z) bars /\
  (buys bars + sells bars = length bars)%nat.
Proof.
  intros Hbelow bars.
  assert (H : Forall (fun b => TotalSignal b = 1%Z \/ TotalSignal b = 2%Z)
                bars).
  { unfold bars.
    destruct (add_total_signal_frame G rand_index n df g) as (_ & _ & ->).
    apply (dropna_signals (fun x => x = 1%Z \/ x = 2%Z)).
    apply (Forall_combine_snd (fun x => x = 1%Z \/ x = 2%Z)).
    now apply signals_for_are_coins. }
  split; [exact H | now apply coins_counted].
Qed.

Lemma lcg_rand_index_below (k : nat) (g : Z) :
  (0 < k)%nat -> (fst (LCG.rand_index k g) < k)%nat.
Proof.
  intro Hk. unfold LCG.rand_index. simpl.
  pose proof (Z.mod_pos_bound (LCG.next g / 65536) (Z.of_nat k)
                ltac:(lia)) as Hb.
  lia.
Qed.

Lemma every_signal_is_a_coin_witness :
  (buys (fst (prepare Z LCG.rand_index 10 coin_df 1%Z))
   + sells (fst (prepare Z LCG.rand_index 10 coin_df 1%Z))
   = length (fst (prepare Z LCG.rand_index 10 coin_df 1%Z)))%nat.
Proof.
  exact (proj2 (every_signal_is_a_coin Z LCG.rand_index 10 coin_df 1%Z
                  lcg_rand_index_below)).
Defined.

(** ** The metrics of the plot script *)

Lemma filter_Qlt_pos (l : list Q) :
  Forall (Qlt 0) (filter (fun t => Qlt_bool 0 t) l).
Proof.
  apply Forall_forall. intros t Ht. apply filter_In in Ht.
  destruct Ht as (_ & Ht). now apply Qlt_bool_true in Ht.
Qed.

Lemma of_nat_le_Q (a b : nat) :
  (a <= b)%nat -> inject_Z (Z.of_nat a) <= inject_Z (Z.of_nat b).
Proof. intro H. unfold Qle. simpl. lia. Qed.

(** X16.  The win rate lies between 0 and 100.  With trades in the log,
    the average win is [NaN] exactly when no trade is above zero and is
    positive otherwise; the average loss is [NaN] exactly when no trade is
    below zero and is negative otherwise. *)
Theorem plot_metrics_bounds (trades : list Q) :
  (0 <= PlotMain.win_rate trades /\ PlotMain.win_rate trades <= 100) /\
  (trades <> [] ->
   (PlotMain.avg_win trades = None <-> PlotMain.wins trades = []) /\
   (forall v, PlotMain.avg_win trades = Some v -> 0 < v) /\
   (PlotMain.avg_loss trades = None <-> PlotMain.losses trades = []) /\
   (forall v, PlotMain.avg_loss trades = Some v -> v < 0)).
Proof.
  split.
  - unfold PlotMain.win_rate. destruct trades as [| t l]; [lra |].
    set (tr := t :: l).
    assert (Hlen : 0 < inject_Z (Z.of_nat (length tr)))
      by (apply length_pos_Q; discriminate).
    assert (Hw0 : 0 <= inject_Z (Z.of_nat (length (PlotMain.wins tr))))
      by (unfold Qle; simpl; lia).
    assert (Hw1 : inject_Z (Z.of_nat (length (PlotMain.wins tr)))
                  <= inject_Z (Z.of_nat (length tr)))
      by (apply of_nat_le_Q, filter_length_le).
    set (w := inject_Z (Z.of_nat (length (PlotMain.wins tr)))) in *.
    set (n := inject_Z (Z.of_nat (length tr))) in *.
    assert (H0 : 0 <= w / n)
      by (apply Qle_shift_div_l; [exact Hlen | lra]).
    assert (H1 : w / n <= 1)
      by (apply Qle_shift_div_r; [exact Hlen | lra]).
    lra.
  - intro Hne. unfold PlotMain.avg_win, PlotMain.avg_loss, PlotMain.np_mean.
    destruct trades as [| t l]; [congruence |].
    set (tr := t :: l).
    repeat split.
    + destruct (PlotMain.wins tr); [reflexivity | discriminate].
    + intros ->. reflexivity.
    + intros v Hv.
      pose proof (filter_Qlt_pos tr) as Hpos. fold (PlotMain.wins tr) in Hpos.
      destruct (PlotMain.wins tr) as [| x xs] eqn:E; [discriminate |].
      injection Hv as <-. apply mean_pos; [discriminate | exact Hpos].
    + destruct (PlotMain.losses tr); [reflexivity | discriminate].
    + intros ->. reflexivity.
    + intros v Hv.
      assert (Hneg : Forall (fun x => x < 0) (PlotMain.losses tr)).
      { apply Forall_forall. intros x Hx. apply filter_In in Hx.
        destruct Hx as (_ & Hx). now apply Qlt_bool_true in Hx. }
      destruct (PlotMain.losses tr) as [| x xs] eqn:E; [discriminate |].
      injection Hv as <-.
      assert (Hm : 0 < mean (map Qopp (x :: xs))).
      { apply mean_pos; [discriminate |].
        apply Forall_map. eapply Forall_impl; [| exact Hneg].
        intros a Ha. simpl in Ha. lra. }
      assert (Hopp : mean (map Qopp (x :: xs)) == - mean (x :: xs)).
      { unfold mean. rewrite length_map.
        assert (Hs : forall l0, sum (map Qopp l0) == - sum l0).
        { induction l0 as [| a l0 IH]; [unfold sum; simpl; lra |].
          cbn [map]. rewrite !sum_cons, IH. lra. }
        rewrite Hs. field.
        pose proof (length_pos_Q (x :: xs) ltac:(discriminate)). lra. }
      lra.
Qed.

Lemma plot_metrics_bounds_witness :
  exists v, PlotMain.avg_win [-5; 3; 0] = Some v /\ 0 < v.
Proof.
  eexists. split; [reflexivity |].
  apply (proj1 (proj2 (proj2 (plot_metrics_bounds [-5; 3; 0])
                         ltac:(discriminate)))).
  reflexivity.
Defined.

(** ** Positions that stay open, and the failure of the baseline *)

(** A position that has the same sign before and after an iteration was
    not entered in it. *)
Lemma held_step_no_entry (risk_pct atr_mult : Q) (s s' : State) (b : Bar) :
  bar_step risk_pct atr_mult s b = Ok s' ->
  (0 < position s /\ 0 < position s') \/ (position s < 0 /\ position s' < 0) ->
  entry_test s b = false.
Proof.
  intros H Hheld.
  destruct (bar_step_split _ _ _ _ _ H) as (s1 & He & ->).
  destruct (entry_test s b) eqn:Ht; [exfalso | reflexivity].
  pose proof (trailing_step_cases atr_mult s1 b) as (_ & Hc).
  cbv zeta in Hc.
  pose proof (pymin_le_l (Close b - atr_mult * ATR b)
                (Close b + atr_mult * ATR b)) as Hmin1.
  pose proof (pymin_le_r (Close b - atr_mult * ATR b)
                (Close b + atr_mult * ATR b)) as Hmin2.
  pose proof (pymax_ge_l (Close b + atr_mult * ATR b)
                (Close b - atr_mult * ATR b)) as Hmax1.
  pose proof (pymax_ge_r (Close b + atr_mult * ATR b)
                (Close b - atr_mult * ATR b)) as Hmax2.
  destruct (entry_step_enter _ _ s s1 b Ht He)
    as (Hd & _ & _ & _ & [(Hl & Hp & Htr) | (Hl & Hsh & Hp & Htr)]).
  - unfold long_entry_test in Hl. apply andb_true_iff in Hl.
    destruct Hl as (_ & Hl). apply Qle_bool_iff in Hl.
    destruct Hheld as [(? & _) | (_ & Hneg)]; [lra |].
    destruct Hc as [(Hpos & _ & [(_ & Hz & _) | (_ & Hz & _)])
                   | [(Hn & Hts & [(_ & Hz & _) | (Hlt & Hz & _)])
                     | (Hz & Heq)]];
      try (rewrite Hz in Hneg; lra).
    + rewrite Hts, Htr in Hlt. lra.
    + rewrite Heq in Hneg. lra.
  - unfold short_entry_test in Hsh. apply andb_true_iff in Hsh.
    destruct Hsh as (_ & Hsh). apply Qle_bool_iff in Hsh.
    destruct Hheld as [(_ & Hpos') | (? & _)]; [| lra].
    destruct Hc as [(Hpos & Hts & [(_ & Hz & _) | (Hlt & Hz & _)])
                   | [(Hn & _ & [(_ & Hz & _) | (_ & Hz & _)])
                     | (Hz & Heq)]];
      try (rewrite Hz in Hpos'; lra).
    + rewrite Hts, Htr in Hlt. lra.
    + rewrite Heq in Hpos'. lra.
Qed.

(** X17.  While a position of one sign stays open over a bar, only its
    stop may move: the size, the entry price, the equity and the trade log
    are the same before and after the bar. *)
Theorem held_position_unchanged
    (risk_pct atr_mult : Q) (s s' : State) (b : Bar) :
  bar_step risk_pct atr_mult s b = Ok s' ->
  (0 < position s /\ 0 < position s') \/ (position s < 0 /\ position s' < 0) ->
  position s' = position s /\ entry_price s' = entry_price s /\
  equity s' = equity s /\ trades s' = trades s.
Proof.
  intros H Hheld.
  pose proof (held_step_no_entry _ _ _ _ _ H Hheld) as Ht.
  destruct (bar_step_split _ _ _ _ _ H) as (s1 & He & ->).
  rewrite (entry_step_skip _ _ s b Ht) in He. injection He as <-.
  pose proof (trailing_step_cases atr_mult s b) as (Hep & Hc).
  cbv zeta in Hep, Hc.
  destruct Hc as [(_ & _ & [(_ & Hz & _) | (_ & Hz & Hq & Hr)])
                 | [(_ & _ & [(_ & Hz & _) | (_ & Hz & Hq & Hr)])
                   | (_ & Heq)]].
  - rewrite Hz in Hheld. lra.
  - auto.
  - rewrite Hz in Hheld. lra.
  - auto.
  - rewrite Heq. auto.
Qed.

Lemma held_position_unchanged_witness :
  exists s',
    bar_step default_risk default_mult (mkState 10000 5 100 94 [])
      (mkBar 105 2 2) = Ok s' /\
    position s' = 5 /\ entry_price s' = 100.
Proof.
  eexists. split; [vm_compute; reflexivity |].
  destruct (held_position_unchanged default_risk default_mult
              (mkState 10000 5 100 94 []) _ (mkBar 105 2 2) eq_refl)
    as (Hp & He & _).
  - left. split; reflexivity.
  - split; [exact Hp | exact He].
Defined.

(** X18.  The baseline divides once, [100 / price] on a purchase: an
    iteration fails exactly on a coin 2 while flat at a close of zero, and
    a run over closes that are not zero returns. *)
Theorem baseline_fails_only_at_zero_close :
  (forall s b,
      V2.bar_step s b = DivByZero <->
      TotalSignal b = 2%Z /\ V2.position s == 0 /\ Close b == 0) /\
  (forall df initial_capital,
      Forall (fun b => ~ Close b == 0) df ->
      exists r, V2.run_random_backtest df initial_capital = Ok r).
Proof.
  assert (Hstep : forall s b,
             V2.bar_step s b = DivByZero <->
             TotalSignal b = 2%Z /\ V2.position s == 0 /\ Close b == 0).
  { intros s b.
    destruct (v2_bar_step_cases s b)
      as [(H2 & Hz & E) | [(H1 & Hp & E) | ([Hx | Hx] & _ & E)]];
      rewrite E.
    - destruct (v2_div_100 (Close b)) as [(Hc & ->) | (Hc & ->)]; simpl;
        intuition discriminate.
    - split; [discriminate |]. intros (H2 & _). congruence.
    - split; [discriminate |]. intros (H2 & _). congruence.
    - split; [discriminate |]. intros (_ & Hz & _). contradiction. }
  split; [exact Hstep |].
  intros df initial_capital Hall. unfold V2.run_random_backtest.
  assert (Hrun : forall s, exists s', V2.run_bars s df = Ok s').
  { induction Hall as [| b df Hb _ IH]; intro s; simpl; [eauto |].
    destruct (V2.bar_step s b) as [s1 |] eqn:E.
    - simpl. apply IH.
    - apply Hstep in E. destruct E as (_ & _ & Hz). contradiction. }
  destruct (Hrun (V2.init_state initial_capital)) as (s & ->).
  simpl. eauto.
Qed.

Lemma baseline_fails_only_at_zero_close_witness :
  V2.bar_step (V2.init_state default_capital) (mkBar 0 2 2) = DivByZero /\
  exists r, V2.run_random_backtest baseline_df default_capital = Ok r.
Proof.
  split.
  - apply (proj1 baseline_fails_only_at_zero_close). repeat split.
  - apply (proj2 baseline_fails_only_at_zero_close).
    repeat constructor; vm_compute; discriminate.
Defined.
